(** * local-ai-transcription: the transcription pipeline of [src/main/index.ts]
      and the progress-listener API of [src/preload/index.ts].

    The development is a shallow embedding.  JavaScript values are modelled as
    follows.

    - A string is a Rocq [string]; every character stands for one UTF-16 code
      unit in the range 0..255, so ASCII literals of the source are exact.  The
      white space of [String.prototype.trim] and of the regular-expression
      class [\s] in that range is TAB, LF, VT, FF, CR, SPACE and NBSP.
    - A number is a [num]: [NaN], the two infinities, or a finite binary64
      value, written as the rational it stands for.  Every arithmetic
      operation computes the exact result and rounds it to the nearest
      binary64 value, ties to even, overflowing to an infinity ([round64]),
      as IEEE 754 prescribes; the two zeros are identified.
    - Thrown values are [Error] objects identified by their message.
    - The main-process handler runs in a state-and-exception monad over a
      [World]: the readiness flag, the files on disk and the trace of
      observable events (console output, file operations, engine activity and
      messages sent to the renderer). *)

From Stdlib Require Import ZArith QArith Qround Qabs Lia Lqa.
From Stdlib Require Qcanon.
From Stdlib Require Import Strings.String Strings.Ascii.
From Stdlib Require Import Numbers.DecimalString Numbers.DecimalN.
From stdpp Require Import base option list sorting strings gmap.

Local Open Scope string_scope.
Local Open Scope list_scope.

(* ===================================================================== *)
(** ** JavaScript numbers *)
(* ===================================================================== *)

Inductive num : Type :=
| NaN
| NegInf
| Fin (q : Q)
| PosInf.

(** [floor (log2 (n / d))] *)
Definition floorLog2 (n d : positive) : Z :=
  let k := (Z.log2 (Z.pos n) - Z.log2 (Z.pos d))%Z in
  if (Z.pos d * 2 ^ Z.max k 0 <=? Z.pos n * 2 ^ Z.max (- k) 0)%Z
  then k else (k - 1)%Z.

(** The integer nearest to [num / den], the even one of two. *)
Definition roundHalfEven (num den : Z) : Z :=
  let qt := (num / den)%Z in
  match (2 * (num mod den) ?= den)%Z with
  | Lt => qt
  | Gt => (qt + 1)%Z
  | Eq => if Z.even qt then qt else (qt + 1)%Z
  end.

(** The binary64 value nearest to [n / d]: a multiple [m * 2 ^ e] of the unit
    in the last place, where [e] is [floor (log2 (n / d)) - 52], or -1074 for
    a subnormal; from [2 ^ 1024] on, the result is infinite. *)
Definition roundPositive (n d : positive) : num :=
  let e := Z.max (floorLog2 n d - 52) (-1074) in
  let m := roundHalfEven (Z.pos n * 2 ^ Z.max (- e) 0)
                         (Z.pos d * 2 ^ Z.max e 0) in
  if (2 ^ 1024 * 2 ^ Z.max (- e) 0 <=? m * 2 ^ Z.max e 0)%Z then PosInf
  else Fin (Qred ((m * 2 ^ Z.max e 0) # Z.to_pos (2 ^ Z.max (- e) 0))).

(** [- x] *)
Definition num_opp (x : num) : num :=
  match x with
  | NaN => NaN
  | NegInf => PosInf
  | PosInf => NegInf
  | Fin q => Fin (- q)
  end.

(** Rounding to nearest, ties to even, of a rational in lowest terms. *)
Definition round64 (q : Q) : num :=
  match Qnum q with
  | Z0 => Fin 0
  | Z.pos n => roundPositive n (Qden q)
  | Z.neg n => num_opp (roundPositive n (Qden q))
  end.

(** The binary64 result of an operation whose exact result is [q].  Finite
    numbers are kept in lowest terms, so that equal numbers are equal terms:
    62.5 is [Fin (125 # 2)] and 1 is [Fin 1]. *)
Definition fin (q : Q) : num := round64 (Qred q).

Definition num_of_Z (z : Z) : num := Fin (inject_Z z).

Definition Qsign (q : Q) : comparison := (Qnum q ?= 0)%Z.

(** [a * b] *)
Definition num_mul (a b : num) : num :=
  match a, b with
  | NaN, _ | _, NaN => NaN
  | Fin x, Fin y => fin (x * y)
  | Fin x, PosInf | PosInf, Fin x =>
      match Qsign x with Eq => NaN | Gt => PosInf | Lt => NegInf end
  | Fin x, NegInf | NegInf, Fin x =>
      match Qsign x with Eq => NaN | Gt => NegInf | Lt => PosInf end
  | PosInf, PosInf | NegInf, NegInf => PosInf
  | PosInf, NegInf | NegInf, PosInf => NegInf
  end.

(** [a + b] *)
Definition num_add (a b : num) : num :=
  match a, b with
  | NaN, _ | _, NaN => NaN
  | Fin x, Fin y => fin (x + y)
  | PosInf, NegInf | NegInf, PosInf => NaN
  | PosInf, _ | _, PosInf => PosInf
  | NegInf, _ | _, NegInf => NegInf
  end.

(** [a / b]; with one zero only, [x / 0] takes the sign of [x]. *)
Definition num_div (a b : num) : num :=
  match a, b with
  | NaN, _ | _, NaN => NaN
  | Fin x, Fin y =>
      match Qsign y with
      | Eq => match Qsign x with Eq => NaN | Gt => PosInf | Lt => NegInf end
      | _ => fin (x / y)
      end
  | Fin _, (PosInf | NegInf) => Fin 0
  | (PosInf | NegInf), (PosInf | NegInf) => NaN
  | PosInf, Fin y => match Qsign y with Lt => NegInf | _ => PosInf end
  | NegInf, Fin y => match Qsign y with Lt => PosInf | _ => NegInf end
  end.

(** [a <= b]: false as soon as one side is [NaN]. *)
Definition num_leb (a b : num) : bool :=
  match a, b with
  | NaN, _ | _, NaN => false
  | NegInf, _ => true
  | _, PosInf => true
  | Fin x, Fin y => Qle_bool x y
  | _, _ => false
  end.

(** [Math.round]: the integer nearest to [x], ties towards +infinity, that is
    [floor (x + 1/2)]; [NaN] and the infinities are returned unchanged. *)
Definition Math_round (x : num) : num :=
  match x with
  | Fin q => num_of_Z (Qfloor (q + (1 # 2)))
  | other => other
  end.

Declare Scope num_scope.
Delimit Scope num_scope with num.
Bind Scope num_scope with num.
Infix "*" := num_mul : num_scope.
Infix "+" := num_add : num_scope.
Infix "/" := num_div : num_scope.
Infix "<=?" := num_leb : num_scope.

(* ===================================================================== *)
(** ** JavaScript strings *)
(* ===================================================================== *)

(** White space and line terminators among the code units 0..255. *)
Definition isWhiteSpace (c : ascii) : bool :=
  let n := nat_of_ascii c in
  ((9 <=? n)%nat && (n <=? 13)%nat) || (n =? 32)%nat || (n =? 160)%nat.

Definition isEmpty (s : string) : bool :=
  match s with EmptyString => true | String _ _ => false end.

(** Truthiness of a string: every string but the empty one. *)
Definition truthy (s : string) : bool := negb (isEmpty s).

Fixpoint trimStart (s : string) : string :=
  match s with
  | String c r => if isWhiteSpace c then trimStart r else s
  | EmptyString => EmptyString
  end.

Fixpoint trimEnd (s : string) : string :=
  match s with
  | String c r =>
      let r' := trimEnd r in
      if isWhiteSpace c && isEmpty r' then EmptyString else String c r'
  | EmptyString => EmptyString
  end.

(** [s.trim()] *)
Definition trim (s : string) : string := trimStart (trimEnd s).

(** [s.replace(/\s+/g, ' ')]: every maximal run of white space becomes one
    space.  [inRun] tells that the previous character was white space. *)
Fixpoint collapse_from (inRun : bool) (s : string) : string :=
  match s with
  | String c r =>
      if isWhiteSpace c
      then (if inRun then collapse_from true r
            else String " " (collapse_from true r))
      else String c (collapse_from false r)
  | EmptyString => EmptyString
  end.

Definition collapseWhiteSpace (s : string) : string := collapse_from false s.

Fixpoint lastChar (s : string) : option ascii :=
  match s with
  | EmptyString => None
  | String c EmptyString => Some c
  | String _ r => lastChar r
  end.

(** [s.match(/[.!?]$/)] is truthy: the last character of [s] is a full stop,
    an exclamation mark or a question mark.  Without the [m] flag [$] only
    matches at the end of the input. *)
Definition matchesSentenceEnd (s : string) : bool :=
  match lastChar s with
  | Some c => Ascii.eqb c "." || Ascii.eqb c "!" || Ascii.eqb c "?"
  | None => false
  end.

(** [s.split(sep)] for a one-character separator: the pieces between the
    occurrences of [sep]; never empty. *)
Fixpoint split (sep : ascii) (s : string) : list string :=
  match s with
  | EmptyString => [EmptyString]
  | String c r =>
      if Ascii.eqb c sep then EmptyString :: split sep r
      else match split sep r with
           | p :: ps => String c p :: ps
           | [] => [String c EmptyString]
           end
  end.

(** [parts.join(sep)] *)
Fixpoint join (sep : string) (parts : list string) : string :=
  match parts with
  | [] => EmptyString
  | [p] => p
  | p :: ps => p ++ sep ++ join sep ps
  end.

(** Value of a digit in a radix up to 16, if the character is one. *)
Definition digitValue (radix : N) (c : ascii) : option N :=
  let n := N_of_ascii c in
  let v :=
    if ((48 <=? n) && (n <=? 57))%N then Some (n - 48)%N
    else if ((97 <=? n) && (n <=? 102))%N then Some (n - 87)%N
    else if ((65 <=? n) && (n <=? 70))%N then Some (n - 55)%N
    else None in
  match v with
  | Some d => if (d <? radix)%N then Some d else None
  | None => None
  end.

(** The longest prefix of digits of [s] in [radix]: its value read after
    [acc], how many digits it has, and what follows it. *)
Fixpoint readDigits (radix : N) (acc : N) (count : nat) (s : string)
  : N * nat * string :=
  match s with
  | String c r =>
      match digitValue radix c with
      | Some d => readDigits radix (acc * radix + d) (S count) r
      | None => (acc, count, s)
      end
  | EmptyString => (acc, count, s)
  end.

(** An optional sign: [true] for a leading minus. *)
Definition readSign (s : string) : bool * string :=
  match s with
  | String "-" r => (true, r)
  | String "+" r => (false, r)
  | _ => (false, s)
  end.

Definition Qneg_if (neg : bool) (q : Q) : Q := if neg then Qopp q else q.

(** [parseInt(s)] on a string, radix argument absent: leading white space is
    skipped, a sign is read, a [0x] prefix selects radix 16, then the longest
    run of digits is taken and what follows is ignored.  The integer the
    digits write is rounded to binary64. *)
Definition parseInt_string (s : string) : num :=
  let (neg, body) := readSign (trimStart s) in
  let (radix, digits) :=
    match body with
    | String "0" (String "x" r) | String "0" (String "X" r) => (16%N, r)
    | _ => (10%N, body)
    end in
  match readDigits radix 0 0 digits with
  | (_, O, _) => NaN
  | (v, S _, _) => fin (Qneg_if neg (inject_Z (Z.of_N v)))
  end.

(** [parseInt(x)] where [x] is a string or [undefined]: the argument goes
    through [ToString], and ["undefined"] has no leading digit. *)
Definition parseInt (x : option string) : num :=
  match x with
  | Some s => parseInt_string s
  | None => NaN
  end.

(** The exponent part of a decimal literal, which must reach the end. *)
Definition readExponent (s : string) : option Z :=
  match s with
  | EmptyString => Some 0%Z
  | String c r =>
      if Ascii.eqb c "e" || Ascii.eqb c "E" then
        let (neg, ds) := readSign r in
        match readDigits 10 0 0 ds with
        | (v, S _, EmptyString) =>
            Some (if neg then (- Z.of_N v)%Z else Z.of_N v)
        | _ => None
        end
      else None
  end.

(** StrUnsignedDecimalLiteral without [Infinity]: digits, an optional
    fraction, an optional exponent; at least one digit before the exponent. *)
Definition readUnsignedDecimal (s : string) : option Q :=
  match readDigits 10 0 0 s with
  | (ip, ni, rest) =>
      let '(mant, nf, nd, rest') :=
        match rest with
        | String "." r =>
            match readDigits 10 ip 0 r with
            | (m, nf, r') => (m, nf, (ni + nf)%nat, r')
            end
        | _ => (ip, O, ni, rest)
        end in
      match nd with
      | O => None
      | S _ =>
          match readExponent rest' with
          | Some e =>
              Some (inject_Z (Z.of_N mant)
                    * Qpower (10 # 1) (e - Z.of_nat nf))%Q
          | None => None
          end
      end
  end.

(** Binary, octal and hexadecimal integer literals; they take no sign. *)
Definition readNonDecimal (s : string) : option Q :=
  let radix :=
    match s with
    | String "0" (String c _) =>
        if Ascii.eqb c "x" || Ascii.eqb c "X" then Some 16%N
        else if Ascii.eqb c "o" || Ascii.eqb c "O" then Some 8%N
        else if Ascii.eqb c "b" || Ascii.eqb c "B" then Some 2%N
        else None
    | _ => None
    end in
  match radix, s with
  | Some rx, String _ (String _ r) =>
      match readDigits rx 0 0 r with
      | (v, S _, EmptyString) => Some (inject_Z (Z.of_N v))
      | _ => None
      end
  | _, _ => None
  end.

(** [Number(s)] on a string (the abstract operation StringToNumber): white
    space around is dropped, the empty string is 0, and anything that is not
    a whole numeric literal is [NaN].  The value the literal writes is
    rounded to binary64. *)
Definition Number (s : string) : num :=
  let t := trim s in
  if isEmpty t then Fin 0
  else
    match readNonDecimal t with
    | Some q => fin q
    | None =>
        let (neg, u) := readSign t in
        if String.eqb u "Infinity" then (if neg then NegInf else PosInf)
        else match readUnsignedDecimal u with
             | Some q => fin (Qneg_if neg q)
             | None => NaN
             end
    end.

(** [Number(x)] for an array element that may be missing: [undefined]
    converts to [NaN]. *)
Definition toNumber (x : option num) : num :=
  match x with Some n => n | None => NaN end.

(* ===================================================================== *)
(** ** Exceptions and observable events *)
(* ===================================================================== *)

(** A thrown value: an [Error] object, identified by its message. *)
Inductive exn : Type := Error (message : string).

(** How a block of code ends. *)
Inductive completion (A : Type) : Type :=
| Normal (value : A)
| Throw (e : exn).
Arguments Normal {A} value.
Arguments Throw {A} e.

(** What the main process does that can be seen from outside. *)
Inductive Event : Type :=
| ConsoleLog (label : string)
| ConsoleError (label : string) (e : exn)
| FsWrite (path : string)
| FsUnlink (path : string)
| FfmpegRun (inputPath outputPath : string)
| EngineStart (inputPath : string)
| EngineProgress (progress : num)
| Send (channel : string) (progress : num)
| EngineEnd.

(* ===================================================================== *)
(** ** [timestampToSeconds] *)
(* ===================================================================== *)

(** The body of the [try] block.  [timestamp.split(',')] is destructured as
    [[time, ms]]; [time.split(':')] is the only operation that can throw
    (on [undefined]); the pieces go through [Number] and are destructured as
    [[hours, minutes, seconds]], a missing piece being [undefined]. *)
Definition timestampToSeconds_try (timestamp : string) : completion num :=
  let parts := split "," timestamp in
  let time := parts !! 0%nat in
  let ms := parts !! 1%nat in
  match time with
  | None =>
      Throw (Error "Cannot read properties of undefined (reading 'split')")
  | Some time =>
      let fields := map Number (split ":" time) in
      let hours := toNumber (fields !! 0%nat) in
      let minutes := toNumber (fields !! 1%nat) in
      let seconds := toNumber (fields !! 2%nat) in
      Normal (hours * num_of_Z 3600 + minutes * num_of_Z 60 + seconds
              + parseInt ms / num_of_Z 1000)%num
  end.

(** The whole function: the returned number and what it printed. *)
Definition timestampToSeconds_run (timestamp : string) : num * list Event :=
  match timestampToSeconds_try timestamp with
  | Normal seconds => (seconds, [])
  | Throw e => (Fin 0, [ConsoleError "Error parsing timestamp:" e])
  end.

Definition timestampToSeconds (timestamp : string) : num :=
  fst (timestampToSeconds_run timestamp).

(* ===================================================================== *)
(** ** Grouping tokens into sentences *)
(* ===================================================================== *)

(** An item of [result.transcription], as the handler reads it. *)
Module Token.
Record timestamps_t : Type := { from : string; to : string }.
Record t : Type := { text : string; timestamps : timestamps_t }.
End Token.

(** An element of [sentences]; [end] is written [end_]. *)
Module Sentence.
Record t : Type := { text : string; start : num; end_ : num }.
End Sentence.

Abbreviation Token := Token.t.
Abbreviation Sentence := Sentence.t.

(** [ts ? timestampToSeconds(ts) : 0] *)
Definition secondsOrZero (ts : string) : num :=
  if truthy ts then timestampToSeconds ts else Fin 0.

(** [startToken?.from ? timestampToSeconds(startToken.from) : 0] where
    [startToken] is [currentSentence[0]?.timestamps]. *)
Definition startOf (currentSentence : list Token) : num :=
  match head currentSentence with
  | Some first => secondsOrZero (Token.from (Token.timestamps first))
  | None => Fin 0
  end.

(** [endToken?.to ? timestampToSeconds(endToken.to) : 0] where [endToken]
    is [token.timestamps]. *)
Definition endOf (token : Token) : num :=
  secondsOrZero (Token.to (Token.timestamps token)).

(** The text of a sentence: the token texts joined with nothing in between,
    trimmed, runs of white space collapsed. *)
Definition sentenceText (currentSentence : list Token) : string :=
  collapseWhiteSpace (trim (join EmptyString (map Token.text currentSentence))).

(** The block run at a sentence boundary: [sentences] after the push, if
    there is one. *)
Definition closeSentence (currentSentence : list Token) (token : Token)
    (sentences : list Sentence) : list Sentence :=
  let start := startOf currentSentence in
  let end_ := endOf token in
  let text := sentenceText currentSentence in
  if truthy text
  then sentences ++ [ {| Sentence.text := text;
                         Sentence.start := Math_round start;
                         Sentence.end_ := Math_round end_ |} ]
  else sentences.

(** The test of the [if] in the loop body. *)
Definition endsSentence (token : Token) : bool :=
  matchesSentenceEnd (trim (Token.text token)).

(** [transcription.forEach((token, index) => ...)]: [rest] are the tokens
    still to visit, [index] the index of the first of them, [length] is
    [transcription.length]; [currentSentence] and [sentences] are the two
    variables the callback updates. *)
Fixpoint forEachToken (length index : nat) (rest : list Token)
    (currentSentence : list Token) (sentences : list Sentence)
  : list Sentence :=
  match rest with
  | [] => sentences
  | token :: rest' =>
      let currentSentence := currentSentence ++ [token] in
      if endsSentence token || (index =? length - 1)%nat
      then forEachToken length (S index) rest' []
             (closeSentence currentSentence token sentences)
      else forEachToken length (S index) rest' currentSentence sentences
  end.

(** "Group tokens into sentences". *)
Definition groupSentences (transcription : list Token) : list Sentence :=
  forEachToken (length transcription) 0 transcription [] [].

(** The value the handler returns. *)
Record Transcription : Type :=
  { text : string; tokens : list Sentence }.

Definition buildResult (transcription : list Token) : Transcription :=
  let sentences := groupSentences transcription in
  {| text := join " " (map Sentence.text sentences); tokens := sentences |}.

Definition mkToken (text from to : string) : Token :=
  {| Token.text := text;
     Token.timestamps := {| Token.from := from; Token.to := to |} |}.

(* ===================================================================== *)
(** ** The state-and-exception monad of the main process *)
(* ===================================================================== *)

Section Monad.
Context {S : Type}.

Definition M (A : Type) : Type := S -> completion A * S.

Definition ret {A} (a : A) : M A := fun s => (Normal a, s).

Definition bind {A B} (m : M A) (k : A -> M B) : M B :=
  fun s =>
    match m s with
    | (Normal a, s') => k a s'
    | (Throw e, s') => (Throw e, s')
    end.

Definition throw {A} (e : exn) : M A := fun s => (Throw e, s).

Definition gets {A} (f : S -> A) : M A := fun s => (Normal (f s), s).

Definition modify (f : S -> S) : M unit := fun s => (Normal tt, f s).

(** [try { body } catch (error) { handler }] *)
Definition tryCatch {A} (body : M A) (handler : exn -> M A) : M A :=
  fun s =>
    match body s with
    | (Normal a, s') => (Normal a, s')
    | (Throw e, s') => handler e s'
    end.

(** [try { body } finally { finalizer }]: the finalizer always runs; the
    outcome is the body's unless the finalizer itself throws. *)
Definition tryFinally {A} (body : M A) (finalizer : M unit) : M A :=
  fun s =>
    match body s with
    | (outcome, s') =>
        match finalizer s' with
        | (Normal _, s'') => (outcome, s'')
        | (Throw e, s'') => (Throw e, s'')
        end
    end.

(** [items.forEach(f)] for an effectful [f]. *)
Fixpoint forEachM {A} (f : A -> M unit) (items : list A) : M unit :=
  match items with
  | [] => ret tt
  | x :: rest => bind (f x) (fun _ => forEachM f rest)
  end.
End Monad.
Arguments M S A : clear implicits.

Notation "x <- m ;; k" := (bind m (fun x => k))
  (at level 100, m at next level, right associativity).
Notation "m ;; k" := (bind m (fun _ => k))
  (at level 100, right associativity).

(** A computation on a part of the state, run inside a larger state. *)
Definition zoom {S T A} (get : T -> S) (set : S -> T -> T) (m : M S A)
  : M T A :=
  fun t => match m (get t) with (r, s') => (r, set s' t) end.

(* ===================================================================== *)
(** ** The world of the main process *)
(* ===================================================================== *)

Abbreviation bytes := (list Byte.byte).

Record World : Type :=
  { isWhisperInitialized : bool;
    files : gmap string bytes;
    trace : list Event }.

Definition emit (ev : Event) : M World unit :=
  modify (fun w => {| isWhisperInitialized := isWhisperInitialized w;
                      files := files w;
                      trace := trace w ++ [ev] |}).

Definition setFiles (f : gmap string bytes -> gmap string bytes)
  : M World unit :=
  modify (fun w => {| isWhisperInitialized := isWhisperInitialized w;
                      files := f (files w);
                      trace := trace w |}).

(** [console.log] and [console.error]; only the label is recorded. *)
Definition consoleLog (label : string) : M World unit :=
  emit (ConsoleLog label).
Definition consoleError (label : string) (e : exn) : M World unit :=
  emit (ConsoleError label e).

(** What ffmpeg does with the input: it ends with the WAV written, or it
    reports an error, possibly with an output file already begun. *)
Inductive FfmpegOutcome : Type :=
| FfmpegEnd (wav : bytes)
| FfmpegError (err : exn) (partialOutput : option bytes).

(** What the collaborators outside the handler do during one call: the
    scratch directory, the two readings of [Date.now()], whether the file
    system refuses a write or an unlink, the outcome of ffmpeg, and what the
    engine reports and returns. *)
Record Env : Type :=
  { tmpdir : string;
    nowAtRecording : N;
    nowAtConversion : N;
    writeFails : option exn;
    unlinkFails : string -> option exn;
    ffmpeg : FfmpegOutcome;
    engineProgress : list num;
    engineResult : completion (list Token) }.

Definition showN (n : N) : string := NilZero.string_of_uint (N.to_uint n).

(** [path.join(dir, name)] for a directory without trailing separator. *)
Definition pathJoin (dir name : string) : string := dir ++ "/" ++ name.

(** [writeFileSync(path, data)] *)
Definition writeFileSync (env : Env) (path : string) (data : bytes)
  : M World unit :=
  emit (FsWrite path) ;;
  match writeFails env with
  | Some e => throw e
  | None => setFiles (insert path data)
  end.

(** The error Node throws when the file to unlink does not exist. *)
Definition noSuchFile (path : string) : exn :=
  Error ("ENOENT: no such file or directory, unlink '" ++ path ++ "'")%string.

(** [unlinkSync(path)]: throws when the file system refuses, or when there
    is no such file. *)
Definition unlinkSync (env : Env) (path : string) : M World unit :=
  emit (FsUnlink path) ;;
  match unlinkFails env path with
  | Some e => throw e
  | None =>
      present <- gets (fun w => files w !! path) ;;
      match present with
      | Some _ => setFiles (delete path)
      | None => throw (noSuchFile path)
      end
  end.

(** [path.join(tmpdir(), `${Date.now()}.wav`)] *)
Definition wavPath (env : Env) : string :=
  pathJoin (tmpdir env) (showN (nowAtConversion env) ++ ".wav").

(** [convertToWav(inputPath)]: the promise resolves with the output path on
    ffmpeg's [end] event, after the input file has been unlinked, and is
    rejected with ffmpeg's error on its [error] event. *)
Definition convertToWav (env : Env) (inputPath : string) : M World string :=
  let outputPath := wavPath env in
  emit (FfmpegRun inputPath outputPath) ;;
  match ffmpeg env with
  | FfmpegEnd wav =>
      setFiles (insert outputPath wav) ;;
      tryCatch (unlinkSync env inputPath)
               (fun error => consoleError "Error cleaning up input file:" error) ;;
      ret outputPath
  | FfmpegError err partialOutput =>
      match partialOutput with
      | Some data => setFiles (insert outputPath data)
      | None => ret tt
      end ;;
      throw err
  end.

(** [transcribe({ inputPath, onProgress, ... })]: the engine calls
    [onProgress] for each value it reports, then returns the tokens or
    fails. *)
Definition transcribe (env : Env) (inputPath : string)
    (onProgress : num -> M World unit) : M World (list Token) :=
  emit (EngineStart inputPath) ;;
  forEachM (fun progress => emit (EngineProgress progress) ;;
                            onProgress progress)
           (engineProgress env) ;;
  emit EngineEnd ;;
  match engineResult env with
  | Normal transcription => ret transcription
  | Throw e => throw e
  end.

(* ===================================================================== *)
(** ** The handler of ['transcribe-audio'] *)
(* ===================================================================== *)

(** The two variables declared before the [try]. *)
Record Locals : Type :=
  { tempWebmFile : option string;
    tempWavFile : option string }.

Definition Frame : Type := Locals * World.

Definition inWorld {A} (m : M World A) : M Frame A :=
  zoom snd (fun w fr => (fst fr, w)) m.

Definition setTempWebmFile (p : string) : M Frame unit :=
  modify (fun fr => ({| tempWebmFile := Some p;
                        tempWavFile := tempWavFile (fst fr) |}, snd fr)).

Definition setTempWavFile (p : string) : M Frame unit :=
  modify (fun fr => ({| tempWebmFile := tempWebmFile (fst fr);
                        tempWavFile := Some p |}, snd fr)).

(** Runs a block that uses the locals, starting from their initial values. *)
Definition withLocals {A} (init : Locals) (m : M Frame A) : M World A :=
  fun w => match m (init, w) with (r, fr) => (r, snd fr) end.

(** [let tempWebmFile = null; let tempWavFile = null;] *)
Definition noLocals : Locals :=
  {| tempWebmFile := None; tempWavFile := None |}.

Definition notInitialized : exn :=
  Error "Whisper model not initialized. Please wait for initialization to complete.".

(** The [onProgress] callback handed to the engine. *)
Definition onProgress (progress : num) : M World unit :=
  consoleLog "Transcription progress:" ;;
  emit (Send "transcription-progress" progress).

Definition recordingPath (env : Env) : string :=
  pathJoin (tmpdir env)
    ("recording-" ++ showN (nowAtRecording env) ++ ".webm").

(** The body of the [try]. *)
Definition tryBlock (env : Env) (audioData : bytes)
  : M Frame Transcription :=
  let webm := recordingPath env in
  setTempWebmFile webm ;;
  inWorld (writeFileSync env webm audioData) ;;
  inWorld (consoleLog "Saved WebM file:") ;;
  inWorld (consoleLog "Converting to WAV...") ;;
  wav <- inWorld (convertToWav env webm) ;;
  setTempWavFile wav ;;
  inWorld (consoleLog "Converted to WAV:") ;;
  inWorld (consoleLog "Starting transcription...") ;;
  transcription <- inWorld (transcribe env wav onProgress) ;;
  let result := buildResult transcription in
  inWorld (consoleLog "Processed sentences:") ;;
  ret result.

(** [catch (error) { console.error(...); throw error; }] *)
Definition catchBlock (error : exn) : M Frame Transcription :=
  inWorld (consoleError "Transcription error:" error) ;;
  throw error.

(** The [finally] block: only [tempWavFile] is unlinked. *)
Definition finallyBlock (env : Env) : M Frame unit :=
  tryCatch
    (wav <- gets (fun fr => tempWavFile (fst fr)) ;;
     match wav with
     | Some p => inWorld (unlinkSync env p)
     | None => ret tt
     end)
    (fun error =>
       inWorld (consoleError "Error cleaning up temporary files:" error)).

Definition transcribeAudio (env : Env) (audioData : bytes)
  : M World Transcription :=
  ready <- gets isWhisperInitialized ;;
  if negb ready then throw notInitialized
  else
    withLocals noLocals
      (tryFinally (tryCatch (tryBlock env audioData) catchBlock)
                  (finallyBlock env)).

(** ['is-whisper-ready'] *)
Definition isWhisperReady : M World bool :=
  consoleLog "Checking Whisper ready status:" ;;
  gets isWhisperInitialized.

(* ===================================================================== *)
(** ** The preload script: progress listeners in the renderer *)
(* ===================================================================== *)

Module Preload.

(** A callback of the renderer, named by a number. *)
Definition Callback : Type := nat.

(** The function value an arrow expression evaluates to: every evaluation
    makes a new object, told apart by [identity]; [wraps] is the callback
    the arrow function calls. *)
Record Listener : Type := { identity : nat; wraps : Callback }.

(** The renderer side: the counter of function objects made so far, the
    listeners of ['transcription-progress'] in the order they were added,
    and what each callback has been called with. *)
Record Renderer : Type :=
  { allocated : nat;
    listeners : list Listener;
    observed : list (Callback * num) }.

Definition initial : Renderer :=
  {| allocated := 0; listeners := []; observed := [] |}.

(** [ipcRenderer.on(channel, listener)]: appended, no check for
    duplicates. *)
Definition on (listener : Listener) (ls : list Listener) : list Listener :=
  ls ++ [listener].

Definition sameFunction (a b : Listener) : bool :=
  (identity a =? identity b)%nat.

(** [ipcRenderer.removeListener(channel, listener)]: removes the most
    recently added listener that is the very same function object, if
    there is one. *)
Fixpoint removeListener (listener : Listener) (ls : list Listener)
  : list Listener :=
  match ls with
  | [] => []
  | l :: rest =>
      if existsb (sameFunction listener) rest
      then l :: removeListener listener rest
      else if sameFunction listener l then rest else l :: rest
  end.

(** [const listener = (_event, progress) => callback(progress)] *)
Definition newListener (callback : Callback) (r : Renderer) : Listener :=
  {| identity := allocated r; wraps := callback |}.

Definition onTranscriptionProgress (callback : Callback) (r : Renderer)
  : Renderer :=
  let listener := newListener callback r in
  {| allocated := S (allocated r);
     listeners := on listener (listeners r);
     observed := observed r |}.

Definition offTranscriptionProgress (callback : Callback) (r : Renderer)
  : Renderer :=
  let listener := newListener callback r in
  {| allocated := S (allocated r);
     listeners := removeListener listener (listeners r);
     observed := observed r |}.

(** A ['transcription-progress'] message arrives: the listeners are
    called in order, each calling the callback it wraps. *)
Definition receive (progress : num) (r : Renderer) : Renderer :=
  {| allocated := allocated r;
     listeners := listeners r;
     observed :=
       observed r ++ map (fun l => (wraps l, progress)) (listeners r) |}.



(** What one callback has been called with, in order. *)
Definition observedBy (callback : Callback) (r : Renderer) : list num :=
  map snd (filter (fun o => fst o = callback) (observed r)).

(** Every listener was made before the next function object. *)
Definition wellFormed (r : Renderer) : Prop :=
  Forall (fun l => (identity l < allocated r)%nat) (listeners r).

End Preload.

(* ===================================================================== *)
(** ** Startup: [initWhisper] *)
(* ===================================================================== *)

(** What the two installers do when [initWhisper] runs: whether each one
    fails, and what it leaves on disk either way. *)
Record Setup : Type :=
  { installWhisperCpp : option exn;
    installLeaves : gmap string bytes -> gmap string bytes;
    downloadWhisperModel : option exn;
    downloadLeaves : gmap string bytes -> gmap string bytes }.

(** [isWhisperInitialized = b] *)
Definition setInitialized (b : bool) : M World unit :=
  modify (fun w => {| isWhisperInitialized := b;
                      files := files w;
                      trace := trace w |}).

(** [await] of an installer. *)
Definition awaitInstaller (leaves : gmap string bytes -> gmap string bytes)
    (failure : option exn) : M World unit :=
  setFiles leaves ;;
  match failure with
  | Some e => throw e
  | None => ret tt
  end.

Definition initWhisper (setup : Setup) : M World unit :=
  tryCatch
    (consoleLog "Starting Whisper initialization..." ;;
     awaitInstaller (installLeaves setup) (installWhisperCpp setup) ;;
     awaitInstaller (downloadLeaves setup) (downloadWhisperModel setup) ;;
     setInitialized true ;;
     consoleLog "Whisper model loaded successfully")
    (fun error =>
       consoleError "Error loading Whisper model:" error ;;
       setInitialized false).

(* ===================================================================== *)
(** ** The renderer: [formatTime] *)
(* ===================================================================== *)

(** [isNaN(x)] on a number. *)
Definition isNaN (x : num) : bool :=
  match x with NaN => true | _ => false end.

(** [Math.floor] *)
Definition Math_floor (x : num) : num :=
  match x with
  | Fin q => num_of_Z (Qfloor q)
  | other => other
  end.

(** The integer part of a rational, towards zero. *)
Definition Qtruncate (q : Q) : Z := Z.quot (Qnum q) (Z.pos (Qden q)).

(** [a % b]: the remainder has the sign of the dividend. *)
Definition num_rem (a b : num) : num :=
  match a, b with
  | NaN, _ | _, NaN => NaN
  | (PosInf | NegInf), _ => NaN
  | Fin x, (PosInf | NegInf) => Fin x
  | Fin x, Fin y =>
      match Qsign y with
      | Eq => NaN
      | _ => fin (x - y * inject_Z (Qtruncate (x / y)))
      end
  end.

Infix "mod" := num_rem : num_scope.

(** [x.toString()] for [NaN], the infinities, and the whole numbers below
    2^53 in magnitude, which JavaScript prints digit for digit.  [None] stands
    for the other numbers, which are printed with the fewest digits that
    round to the binary64 value. *)
Definition Number_toString (x : num) : option string :=
  match x with
  | NaN => Some "NaN"
  | PosInf => Some "Infinity"
  | NegInf => Some "-Infinity"
  | Fin q =>
      let r := Qred q in
      if (Pos.eqb (Qden r) 1 && (Z.abs (Qnum r) <? 2 ^ 53)%Z)%bool
      then Some ((if (Qnum r <? 0)%Z then "-" else EmptyString)
                 ++ showN (Z.abs_N (Qnum r)))%string
      else None
  end.

Fixpoint repeatChar (n : nat) (c : ascii) : string :=
  match n with
  | O => EmptyString
  | S n' => String c (repeatChar n' c)
  end.

(** [s.padStart(targetLength, pad)] for a one-character [pad]. *)
Definition padStart (targetLength : nat) (pad : ascii) (s : string) : string :=
  repeatChar (targetLength - String.length s) pad ++ s.

(** [formatTime(seconds)]; the argument is a number, so the [typeof] test
    never fires. *)
Definition formatTime (seconds : num) : option string :=
  if isNaN seconds then Some "00:00"
  else
    let minutes := Math_floor (seconds / num_of_Z 60)%num in
    let remainingSeconds := Math_floor (seconds mod num_of_Z 60)%num in
    match Number_toString minutes, Number_toString remainingSeconds with
    | Some m, Some s =>
        Some (padStart 2 "0" m ++ ":" ++ padStart 2 "0" s)%string
    | _, _ => None
    end.

(* ===================================================================== *)
(** * Auxiliary definitions *)
(* ===================================================================== *)

Definition noLeadingSpace (s : string) : Prop :=
  match s with
  | String c _ => isWhiteSpace c = false
  | EmptyString => True
  end.

Definition noTrailingSpace (s : string) : Prop :=
  match lastChar s with
  | Some c => isWhiteSpace c = false
  | None => True
  end.

Fixpoint allWhiteSpace (s : string) : bool :=
  match s with
  | String c r => isWhiteSpace c && allWhiteSpace r
  | EmptyString => true
  end.

Definition num_le (a b : num) : Prop := (a <=? b)%num = true.

(** Half the distance between two neighbouring binary64 values at most, for
    the numbers below [2 ^ B]. *)
Definition halfUlp (B : Z) : Q := 1 # Z.to_pos (2 ^ (54 - B)).

Fixpoint nonDecreasing (l : list num) : bool :=
  match l with
  | a :: (b :: _) as rest => (a <=? b)%num && nonDecreasing rest
  | _ => true
  end.

Definition isNil {A} (l : list A) : bool :=
  match l with [] => true | _ => false end.

(** The loop without its counters: the sentences pushed while visiting
    [rest] when the buffer holds [currentSentence]. *)
Fixpoint sentencesFrom (rest currentSentence : list Token)
  : list Sentence :=
  match rest with
  | [] => []
  | token :: rest' =>
      let currentSentence := currentSentence ++ [token] in
      if endsSentence token || isNil rest'
      then closeSentence currentSentence token [] ++ sentencesFrom rest' []
      else sentencesFrom rest' currentSentence
  end.

Definition lastEndsSentence (tokens : list Token) : Prop :=
  exists token, last tokens = Some token /\ endsSentence token = true.

(** Every sentence pushed has a text that is not empty and is its own
    trimmed form. *)
Definition properText (s : Sentence) : Prop :=
  Sentence.text s <> EmptyString
  /\ trim (Sentence.text s) = Sentence.text s.

(** The two times the loop can read from a token. *)
Definition tokenTimes (token : Token) : list num :=
  [ secondsOrZero (Token.from (Token.timestamps token)); endOf token ].

(** The engine's tokens come in time order: reading [from] then [to] of
    each token in turn never goes back, and every time is a number. *)
Definition chronological (transcription : list Token) : Prop :=
  nonDecreasing (flat_map tokenTimes transcription) = true.

(** The time at which a token starts, as the loop reads it. *)
Definition tokenStart (token : Token) : num :=
  secondsOrZero (Token.from (Token.timestamps token)).

(** The start times of the tokens never go back. *)
Definition startsOrdered (transcription : list Token) : Prop :=
  nonDecreasing (map tokenStart transcription) = true.

(** No token ends before it starts. *)
Definition fromBeforeTo (token : Token) : Prop :=
  num_le (tokenStart token) (endOf token).

(** No token ends before an earlier token starts: for every token and
    every later one, the first starts no later than the second ends. *)
Definition startsBeforeLaterEnds (transcription : list Token) : Prop :=
  StronglySorted (fun a b => num_le (tokenStart a) (endOf b)) transcription.

(** No token starts before an earlier token has ended: for every token and
    every later one, the first ends no later than the second starts. *)
Definition endsBeforeLaterStarts (transcription : list Token) : Prop :=
  StronglySorted (fun a b => num_le (endOf a) (tokenStart b)) transcription.

(** The pieces of a string between its white space characters; there is
    always one, and two white space characters in a row have an empty piece
    between them. *)
Fixpoint pieces (s : string) : list string :=
  match s with
  | EmptyString => [EmptyString]
  | String c r =>
      if isWhiteSpace c then EmptyString :: pieces r
      else match pieces r with
           | p :: ps => String c p :: ps
           | [] => [String c EmptyString]
           end
  end.

(** The words of a string, as the specification means them: the maximal
    runs of characters that are not white space, in order.  Trimming and
    collapsing white space is to put one space between the words. *)
Definition wordsOf (s : string) : list string :=
  List.filter truthy (pieces s).

(** The string begins with a white space character. *)
Definition leadingSpace (s : string) : bool :=
  match s with
  | String c _ => isWhiteSpace c
  | EmptyString => false
  end.

Fixpoint occurs (c : ascii) (s : string) : bool :=
  match s with
  | String d r => Ascii.eqb d c || occurs c r
  | EmptyString => false
  end.

(** Worlds reached from a world [w]. *)
Definition addEvents (events : list Event) (w : World) : World :=
  {| isWhisperInitialized := isWhisperInitialized w;
     files := files w;
     trace := trace w ++ events |}.

Definition withFile (path : string) (data : bytes) (w : World) : World :=
  {| isWhisperInitialized := isWhisperInitialized w;
     files := <[path := data]> (files w);
     trace := trace w |}.

Definition withoutFile (path : string) (w : World) : World :=
  {| isWhisperInitialized := isWhisperInitialized w;
     files := delete path (files w);
     trace := trace w |}.

(** The world after [try { unlinkSync(path) } catch (error) {
    console.error(label, error) }]. *)
Definition afterUnlink (env : Env) (label path : string) (w : World)
  : World :=
  match unlinkFails env path with
  | Some e => addEvents [FsUnlink path; ConsoleError label e] w
  | None =>
      match files w !! path with
      | Some _ => withoutFile path (addEvents [FsUnlink path] w)
      | None =>
          addEvents
            [FsUnlink path;
             ConsoleError label (noSuchFile path)] w
      end
  end.

(** What the engine and the [onProgress] callback leave in the trace for
    the values reported. *)
Definition relayed (values : list num) : list Event :=
  flat_map (fun progress =>
              [ EngineProgress progress;
                ConsoleLog "Transcription progress:";
                Send "transcription-progress" progress ]) values.

(** The world when the engine has returned, conversion having
    succeeded. *)
Definition afterInference (env : Env) (audioData wav : bytes) (w : World)
  : World :=
  addEvents
    ([ConsoleLog "Converted to WAV:"; ConsoleLog "Starting transcription..."]
     ++ [EngineStart (wavPath env)] ++ relayed (engineProgress env)
     ++ [EngineEnd])
    (afterUnlink env "Error cleaning up input file:" (recordingPath env)
       (withFile (wavPath env) wav
          (addEvents
             [ConsoleLog "Saved WebM file:";
              ConsoleLog "Converting to WAV...";
              FfmpegRun (recordingPath env) (wavPath env)]
             (withFile (recordingPath env) audioData
                (addEvents [FsWrite (recordingPath env)] w))))).

(** The world when conversion has failed. *)
Definition afterFailedConversion (env : Env) (audioData : bytes)
    (partialOutput : option bytes) (w : World) : World :=
  let w' :=
    addEvents
      [ConsoleLog "Saved WebM file:";
       ConsoleLog "Converting to WAV...";
       FfmpegRun (recordingPath env) (wavPath env)]
      (withFile (recordingPath env) audioData
         (addEvents [FsWrite (recordingPath env)] w)) in
  match partialOutput with
  | Some data => withFile (wavPath env) data w'
  | None => w'
  end.

(** Events that are neither engine activity nor messages to the
    renderer. *)
Definition housekeeping (ev : Event) : bool :=
  match ev with
  | EngineStart _ | EngineProgress _ | EngineEnd | Send _ _ => false
  | _ => true
  end.

(** How often a callback is wrapped by a registered listener. *)
Definition registrations (callback : Preload.Callback)
    (r : Preload.Renderer) : nat :=
  length (filter (fun l => Preload.wraps l = callback)
                 (Preload.listeners r)).

(** A component that registers its callback and later asks to remove it. *)
Definition mountAndUnmount (callback : Preload.Callback)
    (r : Preload.Renderer) : Preload.Renderer :=
  Preload.offTranscriptionProgress callback
    (Preload.onTranscriptionProgress callback r).

(** Decimal digits and the number a run of them writes. *)
Definition isDecimalDigit (c : ascii) : bool :=
  let n := N_of_ascii c in ((48 <=? n) && (n <=? 57))%N.

Fixpoint allDigits (s : string) : bool :=
  match s with
  | String c r => isDecimalDigit c && allDigits r
  | EmptyString => true
  end.

Definition isDigits (s : string) : bool := negb (isEmpty s) && allDigits s.

Fixpoint decimalFrom (acc : N) (s : string) : N :=
  match s with
  | String c r => decimalFrom (acc * 10 + (N_of_ascii c - 48)) r
  | EmptyString => acc
  end.

Definition decimalValue (s : string) : N := decimalFrom 0 s.

Fixpoint countChar (c : ascii) (s : string) : nat :=
  match s with
  | String d r => (if Ascii.eqb d c then 1 else 0) + countChar c r
  | EmptyString => O
  end.

(** A string without its white space. *)
Fixpoint withoutWhiteSpace (s : string) : string :=
  match s with
  | String c r =>
      if isWhiteSpace c then withoutWhiteSpace r
      else String c (withoutWhiteSpace r)
  | EmptyString => EmptyString
  end.

(** Every white space character is a space, and none follows white space;
    [afterSpace] tells that the previous character was white space. *)
Fixpoint singleSpaced_from (afterSpace : bool) (s : string) : bool :=
  match s with
  | String c r =>
      if isWhiteSpace c
      then Ascii.eqb c " " && negb afterSpace && singleSpaced_from true r
      else singleSpaced_from false r
  | EmptyString => true
  end.

Definition singleSpaced (s : string) : bool := singleSpaced_from false s.

(** No white space at either end, and single spaces only inside. *)
Definition tidy (s : string) : Prop :=
  noLeadingSpace s /\ noTrailingSpace s /\ singleSpaced s = true.

(** Events added to the trace by a run from [w] to [w']. *)
Definition newEvents (w w' : World) : list Event :=
  drop (length (trace w)) (trace w').

(** The line the [catch] block of the handler prints. *)
Definition isTranscriptionError (ev : Event) : bool :=
  match ev with
  | ConsoleError label _ => String.eqb label "Transcription error:"
  | _ => false
  end.

(** Any other event. *)
Definition notTranscriptionError (ev : Event) : bool :=
  negb (isTranscriptionError ev).

Definition engineStarted (ev : Event) : bool :=
  match ev with EngineStart _ => true | _ => false end.

(* ===================================================================== *)
(** ** Scenarios *)
(* ===================================================================== *)

Definition noUnlinkFailure : string -> option exn := fun _ => None.

Definition helloWorld : list Token :=
  [ mkToken "Hello" "00:00:00,000" "00:00:00,500";
    mkToken " world." "00:00:00,500" "00:00:01,000" ].

Definition noPunctuation : list Token :=
  [ mkToken "No punctuation here" "00:00:00,000" "00:00:02,000" ].

(** What the engine may say next: chronological after [helloWorld]. *)
Definition thenMore : list Token :=
  [ mkToken " Then more" "00:00:01,000" "00:00:02,600" ].

(** Two tokens that overlap in time, their starts in order. *)
Definition overlapping : list Token :=
  [ mkToken "One." "00:00:00,000" "00:00:05,000";
    mkToken " Two." "00:00:03,000" "00:00:06,000" ].

(** Tokens with runs of white space, and times that are not whole
    seconds. *)
Definition unevenSpacing : list Token :=
  [ mkToken "  So" "00:00:01,400" "00:00:01,900";
    mkToken "   it  goes!  " "00:00:01,900" "00:00:02,500" ].

(** A call in which everything works and the engine reports the four values
    0.1, 0.4, 0.9 and 1. *)
Definition envSuccess : Env :=
  {| tmpdir := "/tmp";
     nowAtRecording := 1000;
     nowAtConversion := 1200;
     writeFails := None;
     unlinkFails := noUnlinkFailure;
     ffmpeg := FfmpegEnd [];
     engineProgress := [Number "0.1"; Number "0.4"; Number "0.9"; Number "1"];
     engineResult := Normal helloWorld |}.

(** A call in which ffmpeg reports an error. *)
Definition envConversionFails : Env :=
  {| tmpdir := "/tmp";
     nowAtRecording := 1000;
     nowAtConversion := 1200;
     writeFails := None;
     unlinkFails := noUnlinkFailure;
     ffmpeg := FfmpegError (Error "spawn ENOENT") None;
     engineProgress := [];
     engineResult := Normal [] |}.

(** A call in which the engine fails, with the same error. *)
Definition envInferenceFails : Env :=
  {| tmpdir := "/tmp";
     nowAtRecording := 1000;
     nowAtConversion := 1200;
     writeFails := None;
     unlinkFails := noUnlinkFailure;
     ffmpeg := FfmpegEnd [];
     engineProgress := [];
     engineResult := Throw (Error "spawn ENOENT") |}.

Definition sampleAudio : bytes := [Byte.x1a; Byte.x45; Byte.xdf; Byte.xa3].

Definition readyWorld : World :=
  {| isWhisperInitialized := true; files := ∅; trace := [] |}.

Definition startingWorld : World :=
  {| isWhisperInitialized := false; files := ∅; trace := [] |}.

(** Tokens that hold nothing but white space. *)
Definition blankTokens : list Token :=
  [ mkToken "  " "00:00:01,000" "00:00:01,500";
    mkToken " " "00:00:01,500" "00:00:02,000" ].

(** An installation in which the model download fails. *)
Definition setupDownloadFails : Setup :=
  {| installWhisperCpp := None;
     installLeaves := fun disk => disk;
     downloadWhisperModel := Some (Error "getaddrinfo ENOTFOUND");
     downloadLeaves := fun disk => disk |}.

(** An installation in which both steps succeed. *)
Definition setupSucceeds : Setup :=
  {| installWhisperCpp := None;
     installLeaves := fun disk => disk;
     downloadWhisperModel := None;
     downloadLeaves := fun disk => disk |}.

(** A call in which the WAV cannot be unlinked. *)
Definition envWavUnlinkFails : Env :=
  {| tmpdir := "/tmp";
     nowAtRecording := 1000;
     nowAtConversion := 1200;
     writeFails := None;
     unlinkFails :=
       fun path => if String.eqb path "/tmp/1200.wav"
                   then Some (Error "EPERM: operation not permitted, unlink")
                   else None;
     ffmpeg := FfmpegEnd [];
     engineProgress := [];
     engineResult := Normal helloWorld |}.

(* ===================================================================== *)
(** * Properties *)
(* ===================================================================== *)

(** ** Strings: trimming and collapsing *)

Section StringFacts.

Lemma lastChar_cons c r :
  r <> EmptyString -> lastChar (String c r) = lastChar r.
Proof. destruct r; [congruence | reflexivity]. Qed.

Lemma lastChar_None s : lastChar s = None -> s = EmptyString.
Proof.
  induction s as [|c r IH]; [reflexivity|].
  destruct r as [|d r']; [discriminate|].
  intros H. rewrite lastChar_cons in H by discriminate.
  specialize (IH H). discriminate.
Qed.

Lemma noTrailingSpace_tail c r :
  noTrailingSpace (String c r) -> noTrailingSpace r.
Proof.
  unfold noTrailingSpace. destruct r as [|d r']; [intros _; exact I|].
  rewrite lastChar_cons by discriminate. auto.
Qed.

Lemma noTrailingSpace_cons c r :
  isWhiteSpace c = false -> noTrailingSpace r ->
  noTrailingSpace (String c r).
Proof.
  unfold noTrailingSpace. intros Hc Hr. destruct r as [|d r']; [exact Hc|].
  rewrite lastChar_cons by discriminate. exact Hr.
Qed.

Lemma noTrailingSpace_cons_nonempty c r :
  r <> EmptyString -> noTrailingSpace r -> noTrailingSpace (String c r).
Proof.
  unfold noTrailingSpace. intros Hne Hr. rewrite lastChar_cons; assumption.
Qed.

Lemma trimStart_noLeading s : noLeadingSpace (trimStart s).
Proof.
  induction s as [|c r IH]; simpl; [exact I|].
  destruct (isWhiteSpace c) eqn:Hc; [exact IH | exact Hc].
Qed.

Lemma trimStart_noTrailing s :
  noTrailingSpace s -> noTrailingSpace (trimStart s).
Proof.
  induction s as [|c r IH]; simpl; [auto|].
  intros H. destruct (isWhiteSpace c); [|exact H].
  apply IH. eapply noTrailingSpace_tail, H.
Qed.

Lemma trimEnd_noTrailing s : noTrailingSpace (trimEnd s).
Proof.
  induction s as [|c r IH]; simpl; [exact I|].
  destruct (isWhiteSpace c) eqn:Hc; simpl.
  - destruct (trimEnd r) as [|d r'] eqn:Hr; simpl; [exact I|].
    apply noTrailingSpace_cons_nonempty; [discriminate | exact IH].
  - apply noTrailingSpace_cons; assumption.
Qed.

Lemma trim_noLeading s : noLeadingSpace (trim s).
Proof. apply trimStart_noLeading. Qed.

Lemma trim_noTrailing s : noTrailingSpace (trim s).
Proof. apply trimStart_noTrailing, trimEnd_noTrailing. Qed.

Lemma trimStart_id s : noLeadingSpace s -> trimStart s = s.
Proof. destruct s as [|c r]; simpl; [auto|]. intros ->. reflexivity. Qed.

Lemma trimEnd_id s : noTrailingSpace s -> trimEnd s = s.
Proof.
  induction s as [|c r IH]; simpl; [auto|].
  intros H. rewrite IH by (eapply noTrailingSpace_tail, H).
  destruct r as [|d r']; simpl.
  - unfold noTrailingSpace in H. simpl in H. rewrite H. reflexivity.
  - rewrite andb_false_r. reflexivity.
Qed.

Lemma trim_id s : noLeadingSpace s -> noTrailingSpace s -> trim s = s.
Proof.
  intros Hl Ht. unfold trim. rewrite trimEnd_id by assumption.
  apply trimStart_id, Hl.
Qed.

Lemma collapse_from_nonempty b s c :
  lastChar s = Some c -> isWhiteSpace c = false ->
  collapse_from b s <> EmptyString.
Proof.
  revert b. induction s as [|d r IH]; intros b Hl Hc; [discriminate|].
  simpl. destruct r as [|e r'].
  - simpl in Hl. injection Hl as ->. rewrite Hc. discriminate.
  - rewrite lastChar_cons in Hl by discriminate.
    destruct (isWhiteSpace d); [destruct b|]; try discriminate.
    apply IH; assumption.
Qed.

Lemma collapse_from_noTrailing b s :
  noTrailingSpace s -> noTrailingSpace (collapse_from b s).
Proof.
  revert b. induction s as [|c r IH]; intros b H; [exact I|].
  pose proof (noTrailingSpace_tail _ _ H) as Hr.
  simpl. destruct (isWhiteSpace c) eqn:Hc.
  - destruct r as [|d r'].
    + unfold noTrailingSpace in H. simpl in H. congruence.
    + destruct b; [apply IH, Hr|].
      apply noTrailingSpace_cons_nonempty; [|apply IH, Hr].
      unfold noTrailingSpace in Hr.
      destruct (lastChar (String d r')) as [l|] eqn:Hl.
      * eapply collapse_from_nonempty; eassumption.
      * apply lastChar_None in Hl. discriminate.
  - apply noTrailingSpace_cons; [exact Hc | apply IH, Hr].
Qed.

Lemma collapse_noLeading s :
  noLeadingSpace s -> noLeadingSpace (collapseWhiteSpace s).
Proof.
  destruct s as [|c r]; simpl; [auto|]. intros H.
  unfold collapseWhiteSpace. simpl. rewrite H. exact H.
Qed.

(** The text of a sentence is already trimmed. *)
Lemma trim_collapse_trim s :
  trim (collapseWhiteSpace (trim s)) = collapseWhiteSpace (trim s).
Proof.
  apply trim_id.
  - apply collapse_noLeading, trim_noLeading.
  - apply collapse_from_noTrailing, trim_noTrailing.
Qed.

Lemma trimEnd_empty s : trimEnd s = EmptyString <-> allWhiteSpace s = true.
Proof.
  induction s as [|c r IH]; simpl; [tauto|].
  destruct (isWhiteSpace c); simpl.
  - destruct (trimEnd r) eqn:Hr; simpl.
    + split; intros _; [apply IH|]; reflexivity.
    + split; [discriminate|]. intros H. apply IH in H. discriminate.
  - split; discriminate.
Qed.

Lemma trimStart_empty s : trimStart s = EmptyString -> allWhiteSpace s = true.
Proof.
  induction s as [|c r IH]; simpl; [reflexivity|].
  destruct (isWhiteSpace c); [exact IH | discriminate].
Qed.

Lemma allWhiteSpace_lastChar s c :
  allWhiteSpace s = true -> lastChar s = Some c -> isWhiteSpace c = true.
Proof.
  induction s as [|d r IH]; [discriminate|].
  simpl allWhiteSpace. intros [Hd Hr]%andb_true_iff.
  destruct r as [|e r'].
  - simpl. intros [= <-]. exact Hd.
  - rewrite lastChar_cons by discriminate. apply IH, Hr.
Qed.

Lemma trim_empty s : trim s = EmptyString <-> allWhiteSpace s = true.
Proof.
  split.
  - intros H. apply trimEnd_empty.
    pose proof (trimEnd_noTrailing s) as Ht.
    apply trimStart_empty in H.
    unfold noTrailingSpace in Ht.
    destruct (lastChar (trimEnd s)) as [c|] eqn:Hl.
    + pose proof (allWhiteSpace_lastChar _ _ H Hl). congruence.
    + apply lastChar_None, Hl.
  - intros H. apply trimEnd_empty in H. unfold trim. rewrite H. reflexivity.
Qed.

Lemma allWhiteSpace_append a b :
  allWhiteSpace (a ++ b)%string = allWhiteSpace a && allWhiteSpace b.
Proof.
  induction a as [|c r IH]; simpl; [reflexivity|].
  rewrite IH, andb_assoc. reflexivity.
Qed.

Lemma allWhiteSpace_join parts :
  allWhiteSpace (join EmptyString parts) = forallb allWhiteSpace parts.
Proof.
  induction parts as [|p ps IH]; [reflexivity|].
  destruct ps as [|q qs].
  - simpl. rewrite andb_true_r. reflexivity.
  - change (join EmptyString (p :: q :: qs))
      with (p ++ EmptyString ++ join EmptyString (q :: qs))%string.
    rewrite allWhiteSpace_append.
    change (String.append EmptyString (join EmptyString (q :: qs)))
      with (join EmptyString (q :: qs)).
    rewrite IH. reflexivity.
Qed.

Lemma collapse_empty s : s = EmptyString -> collapseWhiteSpace s = EmptyString.
Proof. intros ->. reflexivity. Qed.

End StringFacts.

(** ** Strings: the words of a text *)

Section Words.

Lemma pieces_cons c r :
  exists p ps,
    pieces r = p :: ps
    /\ pieces (String c r)
       = if isWhiteSpace c then EmptyString :: p :: ps
         else String c p :: ps.
Proof.
  cbn [pieces]. destruct (pieces r) as [|p ps] eqn:E.
  - destruct r as [|d r']; [discriminate|]. cbn [pieces] in E.
    destruct (isWhiteSpace d); [discriminate|].
    destruct (pieces r'); discriminate.
  - exists p, ps. split; reflexivity.
Qed.

Lemma wordsOf_cons c r :
  exists p ps,
    pieces r = p :: ps
    /\ wordsOf (String c r)
       = if isWhiteSpace c then wordsOf r
         else String c p :: List.filter truthy ps.
Proof.
  destruct (pieces_cons c r) as (p & ps & E & Ec).
  exists p, ps. split; [exact E|].
  unfold wordsOf. rewrite Ec, E.
  destruct (isWhiteSpace c); reflexivity.
Qed.

Lemma wordsOf_leadingSpace r :
  leadingSpace r = true ->
  exists ps, pieces r = EmptyString :: ps /\ wordsOf r = List.filter truthy ps.
Proof.
  destruct r as [|c r']; [discriminate|]. cbn [leadingSpace]. intros Hc.
  destruct (pieces_cons c r') as (p & ps & E & Ec). rewrite Hc in Ec.
  exists (p :: ps). split; [exact Ec|].
  unfold wordsOf. rewrite Ec. reflexivity.
Qed.

Lemma wordsOf_noLeadingSpace r :
  r <> EmptyString -> leadingSpace r = false ->
  exists p ps,
    pieces r = p :: ps /\ p <> EmptyString
    /\ wordsOf r = p :: List.filter truthy ps.
Proof.
  destruct r as [|c r']; [congruence|]. cbn [leadingSpace]. intros _ Hc.
  destruct (pieces_cons c r') as (p & ps & E & Ec). rewrite Hc in Ec.
  exists (String c p), ps. split; [exact Ec|]. split; [discriminate|].
  unfold wordsOf. rewrite Ec. reflexivity.
Qed.

Lemma wordsOf_nonempty r :
  r <> EmptyString -> noTrailingSpace r -> wordsOf r <> [].
Proof.
  induction r as [|c r IH]; [congruence|]. intros _ Ht.
  destruct (wordsOf_cons c r) as (p & ps & E & Ew). rewrite Ew.
  destruct (isWhiteSpace c) eqn:Hc; [|discriminate].
  destruct r as [|d r'].
  - unfold noTrailingSpace in Ht. simpl in Ht. congruence.
  - apply IH; [discriminate|]. eapply noTrailingSpace_tail, Ht.
Qed.

Lemma join_space_cons c p ws :
  join " " (String c p :: ws) = String c (join " " (p :: ws)).
Proof. destruct ws; reflexivity. Qed.

Lemma join_space_empty w ws :
  join " " (EmptyString :: w :: ws) = String " " (join " " (w :: ws)).
Proof. reflexivity. Qed.

(** Collapsing a text that does not end in white space: the words, one
    space between them, and one space first if the text begins with white
    space that does not continue a run. *)
Lemma collapse_from_words r :
  noTrailingSpace r ->
  forall inRun,
    collapse_from inRun r
    = if leadingSpace r && negb inRun
      then String " " (join " " (wordsOf r))
      else join " " (wordsOf r).
Proof.
  induction r as [|c r IH]; intros Ht inRun; [reflexivity|].
  pose proof (noTrailingSpace_tail _ _ Ht) as Hr.
  destruct (wordsOf_cons c r) as (p & ps & E & Ew).
  cbn [collapse_from leadingSpace]. rewrite Ew.
  destruct (isWhiteSpace c) eqn:Hc.
  - rewrite (IH Hr true), andb_false_r.
    destruct inRun; reflexivity.
  - cbn [andb]. rewrite (IH Hr false), andb_true_r.
    destruct r as [|d r']; [cbn in E; injection E as <- <-; reflexivity|].
    destruct (leadingSpace (String d r')) eqn:Hd.
    + destruct (wordsOf_leadingSpace _ Hd) as (ps' & E' & Ew').
      rewrite E' in E. injection E as <- <-.
      pose proof (wordsOf_nonempty (String d r') ltac:(discriminate) Hr)
        as Hne.
      rewrite Ew' in *.
      destruct (List.filter truthy ps') as [|w ws]; [congruence|].
      reflexivity.
    + destruct (wordsOf_noLeadingSpace (String d r') ltac:(discriminate) Hd)
        as (p' & ps' & E' & Hp' & Ew').
      rewrite E' in E. injection E as <- <-.
      rewrite Ew', join_space_cons. reflexivity.
Qed.

Lemma wordsOf_trimStart s : wordsOf (trimStart s) = wordsOf s.
Proof.
  induction s as [|c r IH]; [reflexivity|].
  cbn [trimStart]. destruct (wordsOf_cons c r) as (p & ps & E & Ew).
  destruct (isWhiteSpace c) eqn:Hc; [|reflexivity].
  rewrite Ew. exact IH.
Qed.

Lemma pieces_trimEnd s :
  exists p ps ps',
    pieces s = p :: ps /\ pieces (trimEnd s) = p :: ps'
    /\ List.filter truthy ps' = List.filter truthy ps.
Proof.
  induction s as [|c r (p & ps & ps' & E & E' & Ef)].
  - exists EmptyString, [], []. repeat split.
  - destruct (pieces_cons c r) as (p0 & ps0 & E0 & Ec).
    rewrite E in E0. injection E0 as <- <-.
    destruct (pieces_cons c (trimEnd r)) as (p1 & ps1 & E1 & Ec').
    rewrite E' in E1. injection E1 as <- <-.
    cbn [trimEnd].
    destruct (isWhiteSpace c) eqn:Hc; cbn [andb].
    + destruct (trimEnd r) as [|d r'] eqn:Hr; cbn [isEmpty].
      * cbn in E'. injection E' as <- <-.
        exists EmptyString, (EmptyString :: ps), [].
        split; [exact Ec|]. split; [reflexivity|].
        cbn [List.filter truthy isEmpty negb]. exact Ef.
      * exists EmptyString, (p :: ps), (p :: ps').
        split; [exact Ec|]. split; [exact Ec'|].
        cbn [List.filter]. rewrite Ef. reflexivity.
    + exists (String c p), ps, ps'.
      split; [exact Ec|]. split; [exact Ec'|]. exact Ef.
Qed.

Lemma wordsOf_trimEnd s : wordsOf (trimEnd s) = wordsOf s.
Proof.
  destruct (pieces_trimEnd s) as (p & ps & ps' & E & E' & Ef).
  unfold wordsOf. rewrite E, E'. cbn [List.filter]. rewrite Ef. reflexivity.
Qed.

Lemma wordsOf_trim s : wordsOf (trim s) = wordsOf s.
Proof. unfold trim. rewrite wordsOf_trimStart. apply wordsOf_trimEnd. Qed.

(** Trimming a text and collapsing its white space leaves its words with
    one space between them. *)
Lemma collapse_trim_words s :
  collapseWhiteSpace (trim s) = join " " (wordsOf s).
Proof.
  unfold collapseWhiteSpace.
  rewrite (collapse_from_words _ (trim_noTrailing s)), wordsOf_trim.
  assert (leadingSpace (trim s) = false) as ->; [|reflexivity].
  pose proof (trim_noLeading s) as H.
  destruct (trim s); [reflexivity | exact H].
Qed.

End Words.

(** ** Numbers: order and rounding *)

Section NumberFacts.

Lemma num_le_trans a b c : num_le a b -> num_le b c -> num_le a c.
Proof.
  unfold num_le.
  destruct a as [| |x|], b as [| |y|], c as [| |z|]; simpl;
    try congruence.
  rewrite !Qle_bool_iff. apply Qle_trans.
Qed.

Lemma num_le_transitive : Transitive num_le.
Proof. exact num_le_trans. Qed.

Lemma num_le_not_NaN_l b : ~ num_le NaN b.
Proof. unfold num_le. simpl. discriminate. Qed.

Lemma num_le_not_NaN_r a : ~ num_le a NaN.
Proof. unfold num_le. destruct a; simpl; discriminate. Qed.

(** Rounding never swaps two numbers. *)
Lemma Math_round_mono a b :
  num_le a b -> num_le (Math_round a) (Math_round b).
Proof.
  unfold num_le.
  destruct a as [| |x|], b as [| |y|];
    cbn [Math_round num_leb]; unfold num_of_Z; cbn [num_leb];
    try congruence.
  rewrite !Qle_bool_iff. intros H.
  rewrite <- Zle_Qle. apply Qfloor_resp_le.
  apply Qplus_le_compat; [exact H | apply Qle_refl].
Qed.

(** [Math.round] of a finite number is the whole number at most a half
    below it and less than a half above it. *)
Lemma Math_round_nearest q :
  exists z,
    Math_round (Fin q) = num_of_Z z
    /\ (inject_Z z - (1 # 2) <= q)%Q /\ (q < inject_Z z + (1 # 2))%Q.
Proof.
  exists (Qfloor (q + (1 # 2))). split; [reflexivity|].
  pose proof (Qfloor_le (q + (1 # 2))) as Hlo.
  pose proof (Qlt_floor (q + (1 # 2))) as Hhi.
  rewrite inject_Z_plus in Hhi. change (inject_Z 1) with 1%Q in Hhi.
  split; lra.
Qed.

Lemma nonDecreasing_Sorted l : nonDecreasing l = true -> Sorted num_le l.
Proof.
  induction l as [|a l IH]; [constructor|].
  destruct l as [|b l].
  - intros _. repeat constructor.
  - simpl. intros [Hab Hl]%andb_true_iff.
    constructor; [apply IH, Hl | constructor; exact Hab].
Qed.

Lemma StronglySorted_sublist {A} (R : relation A) (k l : list A) :
  k `sublist_of` l -> StronglySorted R l -> StronglySorted R k.
Proof.
  induction 1 as [|x k l Hkl IH|x k l Hkl IH]; intros Hs.
  - constructor.
  - apply StronglySorted_inv in Hs as [Hs Hx].
    constructor; [apply IH, Hs|].
    rewrite Forall_forall in *. intros y Hy. apply Hx.
    eapply elem_of_sublist; eassumption.
  - apply StronglySorted_inv in Hs as [Hs _]. apply IH, Hs.
Qed.

End NumberFacts.

(** ** Numbers: rounding to binary64 *)

(** Linear arithmetic over the rationals, with the divisions by 1000 and by
    60 of the source written as products. *)
Ltac q_lra :=
  unfold Qdiv in *;
  change (/ 1000)%Q with (1 # 1000)%Q in *;
  change (/ 60)%Q with (1 # 60)%Q in *;
  lra.

Section Binary64.

Lemma roundHalfEven_spec (num den : Z) :
  (0 < den)%Z ->
  (2 * Z.abs (roundHalfEven num den * den - num) <= den)%Z
  /\ ((den | num)%Z -> (roundHalfEven num den * den)%Z = num)
  /\ ((0 <= num)%Z -> (0 <= roundHalfEven num den)%Z).
Proof.
  intros Hden. unfold roundHalfEven.
  assert (0 <= num -> 0 <= num / den)%Z as Hpos
      by (intros; apply Z.div_pos; lia).
  pose proof (Z.div_mod num den ltac:(lia)) as Hdm.
  pose proof (Z.mod_pos_bound num den Hden) as Hr.
  set (qt := (num / den)%Z) in *. set (r := (num mod den)%Z) in *.
  split; [|split].
  - destruct (Z.compare_spec (2 * r)%Z den) as [E|E|E];
      [destruct (Z.even qt)|..]; lia.
  - intros Hdiv. apply Z.mod_divide in Hdiv; [|lia].
    fold r in Hdiv. rewrite Hdiv in *.
    destruct (Z.compare_spec (2 * 0)%Z den) as [E|E|E]; lia.
  - intros Hnum. specialize (Hpos Hnum).
    destruct (2 * r ?= den)%Z; [destruct (Z.even qt)|..]; lia.
Qed.

Lemma floorLog2_below (B : Z) (n d : positive) :
  (0 <= B)%Z -> (Z.pos n < Z.pos d * 2 ^ B)%Z -> (floorLog2 n d <= B - 1)%Z.
Proof.
  intros HB Hlt. unfold floorLog2.
  destruct (Z.log2_spec (Z.pos n) ltac:(lia)) as [Hn _].
  destruct (Z.log2_spec (Z.pos d) ltac:(lia)) as [_ Hd].
  pose proof (Z.log2_nonneg (Z.pos n)) as Hn0.
  pose proof (Z.log2_nonneg (Z.pos d)) as Hd0.
  set (a := Z.log2 (Z.pos n)) in *. set (b := Z.log2 (Z.pos d)) in *.
  assert (a < b + 1 + B)%Z as Hab.
  { apply (Z.pow_lt_mono_r_iff 2); [lia | lia |].
    rewrite Z.pow_add_r by lia.
    assert (0 < 2 ^ B)%Z by (apply Z.pow_pos_nonneg; lia). nia. }
  destruct (Z.leb_spec (Z.pos d * 2 ^ Z.max (a - b) 0)%Z
                       (Z.pos n * 2 ^ Z.max (- (a - b)) 0)%Z) as [Hle|_]; [|lia].
  destruct (Z.eq_dec (a - b)%Z B) as [E|]; [|lia].
  rewrite E in Hle. rewrite Z.max_l, Z.max_r in Hle by lia.
  change (2 ^ 0)%Z with 1%Z in Hle. lia.
Qed.

Lemma roundPositive_small (B : Z) (n d : positive) :
  (0 <= B <= 52)%Z -> (Z.pos n < Z.pos d * 2 ^ B)%Z ->
  exists r,
    roundPositive n d = Fin r
    /\ (0 <= r)%Q
    /\ (Qabs (r - (Z.pos n # d)) <= halfUlp B)%Q
    /\ ((Z.pos d | 2 ^ (53 - B))%Z -> r = Qred (Z.pos n # d)).
Proof.
  intros HB Hlt. unfold roundPositive.
  pose proof (floorLog2_below B n d ltac:(lia) Hlt) as Hfl.
  set (e := (Z.max (floorLog2 n d - 52) (-1074))%Z).
  assert (-1074 <= e <= B - 53)%Z as He by lia.
  rewrite (Z.max_r e 0), (Z.max_l (- e) 0) by lia.
  change (2 ^ 0)%Z with 1%Z. rewrite !Z.mul_1_r.
  set (E := (- e)%Z) in *.
  assert (0 < 2 ^ E)%Z as HP by (apply Z.pow_pos_nonneg; lia).
  assert (exists k, 2 ^ E = 2 ^ (53 - B) * k /\ 0 < k)%Z as (k & Hk & Hk0).
  { exists (2 ^ (E - (53 - B)))%Z. split.
    - rewrite <- Z.pow_add_r by lia. f_equal. lia.
    - apply Z.pow_pos_nonneg; lia. }
  assert (0 < 2 ^ (53 - B))%Z as HQ by (apply Z.pow_pos_nonneg; lia).
  destruct (roundHalfEven_spec (Z.pos n * 2 ^ E)%Z (Z.pos d) ltac:(lia))
    as (Herr & Hex & Hm0).
  set (m := roundHalfEven (Z.pos n * 2 ^ E)%Z (Z.pos d)) in *.
  assert (2 ^ B * 2 ^ E < 2 ^ 1024 * 2 ^ E)%Z as Hbig.
  { apply Z.mul_lt_mono_pos_r; [exact HP|].
    apply Z.pow_lt_mono_r; lia. }
  assert (m <= 2 ^ B * 2 ^ E)%Z as Hm.
  { assert (0 < 2 ^ B)%Z by (apply Z.pow_pos_nonneg; lia). nia. }
  destruct (Z.leb_spec (2 ^ 1024 * 2 ^ E)%Z m) as [|_]; [lia|].
  eexists. split; [reflexivity|]. split; [|split].
  - rewrite Qred_correct. unfold Qle. cbn [Qnum Qden]. fold m. lia.
  - rewrite Qred_correct. apply Qabs_Qle_condition.
    unfold halfUlp, Qle, Qopp, Qminus, Qplus, Qopp. cbn [Qnum Qden].
    rewrite !Pos2Z.inj_mul, !Z2Pos.id by (try apply Z.pow_pos_nonneg; lia).
    replace (54 - B)%Z with (1 + (53 - B))%Z by lia.
    rewrite Z.pow_add_r by lia. change (2 ^ 1)%Z with 2%Z.
    rewrite Hk in *. nia.
  - intros Hdiv. apply Qred_complete. unfold Qeq. cbn [Qnum Qden].
    rewrite Z2Pos.id by lia. rewrite <- Hex; [ring|].
    apply Z.divide_mul_r. etransitivity; [exact Hdiv|].
    exists k. lia.
Qed.


(** Below [2 ^ B], for [B] up to 52, rounding moves a number by at most
    [halfUlp B], and leaves it alone when the denominator of its lowest terms
    divides [2 ^ (53 - B)]. *)
Lemma fin_small (B : Z) (q : Q) :
  (0 <= B <= 52)%Z -> (0 <= q)%Q -> (q < inject_Z (2 ^ B))%Q ->
  exists r,
    fin q = Fin r
    /\ (0 <= r)%Q
    /\ (Qabs (r - q) <= halfUlp B)%Q
    /\ ((Z.pos (Qden (Qred q)) | 2 ^ (53 - B))%Z -> r = Qred q).
Proof.
  intros HB H0 Hlt. unfold fin, round64.
  pose proof (Qred_correct q) as Hq.
  destruct (Qred q) as [n d] eqn:E. cbn [Qnum Qden].
  destruct n as [|n|n].
  - exists 0%Q. split; [reflexivity|]. split; [discriminate|]. split.
    + rewrite <- Hq. discriminate.
    + intros _. rewrite <- E. symmetry.
      apply (Qred_complete q 0). rewrite <- Hq. reflexivity.
  - assert (Z.pos n < Z.pos d * 2 ^ B)%Z as Hn.
    { rewrite <- Hq in Hlt. unfold Qlt in Hlt. cbn [Qnum Qden inject_Z] in Hlt.
      lia. }
    destruct (roundPositive_small B n d HB Hn) as (r & Hr & Hr0 & Herr & Hex).
    exists r. split; [exact Hr|]. split; [exact Hr0|]. split.
    + rewrite <- Hq. exact Herr.
    + intros Hdiv. rewrite (Hex Hdiv), <- E.
      apply Qred_complete, Qred_correct.
  - exfalso. rewrite <- Hq in H0. unfold Qle in H0. cbn in H0. lia.
Qed.

Lemma Qred_inject_Z z : Qred (inject_Z z) = inject_Z z.
Proof. apply Qcanon.Qred_identity. simpl. apply Z.gcd_1_r. Qed.

(** Whole numbers below [2 ^ 52] are binary64 values. *)
Lemma fin_inject_Z (z : Z) :
  (0 <= z < 2 ^ 52)%Z -> fin (inject_Z z) = num_of_Z z.
Proof.
  intros Hz.
  destruct (fin_small 52 (inject_Z z)) as (r & Hr & _ & _ & Hex).
  - lia.
  - change 0%Q with (inject_Z 0). rewrite <- Zle_Qle. lia.
  - rewrite <- Zlt_Qlt. lia.
  - rewrite Hr, Hex, Qred_inject_Z; [reflexivity|].
    rewrite Qred_inject_Z. exists 2%Z. reflexivity.
Qed.

Lemma Qfloor_between (z : Z) (q : Q) :
  (inject_Z z <= q)%Q -> (q < inject_Z (z + 1))%Q -> Qfloor q = z.
Proof.
  intros Hlo Hhi.
  assert (z <= Qfloor q)%Z as H1.
  { rewrite <- (Qfloor_Z z). apply Qfloor_resp_le, Hlo. }
  assert (Qfloor q < z + 1)%Z as H2.
  { rewrite Zlt_Qlt. eapply Qle_lt_trans; [apply Qfloor_le | exact Hhi]. }
  lia.
Qed.

End Binary64.

(** ** The sentence loop *)

Section Grouping.

Lemma closeSentence_app cur token sentences :
  closeSentence cur token sentences
  = sentences ++ closeSentence cur token [].
Proof.
  unfold closeSentence. destruct (truthy (sentenceText cur)).
  - reflexivity.
  - rewrite app_nil_r. reflexivity.
Qed.

Lemma forEachToken_sentencesFrom len index rest cur sentences :
  (index + length rest = len)%nat ->
  forEachToken len index rest cur sentences
  = sentences ++ sentencesFrom rest cur.
Proof.
  revert index cur sentences.
  induction rest as [|token rest IH]; intros index cur sentences Hlen.
  - simpl. rewrite app_nil_r. reflexivity.
  - simpl in Hlen. simpl.
    assert ((index =? len - 1)%nat = isNil rest) as ->.
    { destruct rest; simpl in *.
      - apply Nat.eqb_eq. lia.
      - apply Nat.eqb_neq. lia. }
    destruct (endsSentence token || isNil rest).
    + rewrite IH by lia. rewrite (closeSentence_app _ _ sentences).
      rewrite app_assoc. reflexivity.
    + apply IH. lia.
Qed.

Lemma groupSentences_sentencesFrom transcription :
  groupSentences transcription = sentencesFrom transcription [].
Proof.
  unfold groupSentences.
  rewrite forEachToken_sentencesFrom by reflexivity. reflexivity.
Qed.

(** A run of tokens none of which ends a sentence, followed by one that
    does or is the last: one buffer, closed at its last token. *)
Lemma sentencesFrom_boundary group token rest cur :
  Forall (fun x => endsSentence x = false) group ->
  endsSentence token = true \/ rest = [] ->
  sentencesFrom (group ++ token :: rest) cur
  = closeSentence (cur ++ group ++ [token]) token []
    ++ sentencesFrom rest [].
Proof.
  intros Hgroup Hlast. revert cur.
  induction Hgroup as [|x group Hx _ IH]; intros cur.
  - simpl.
    assert (endsSentence token || isNil rest = true) as ->.
    { destruct Hlast as [-> | ->]; [reflexivity | apply orb_true_r]. }
    reflexivity.
  - simpl. rewrite Hx.
    assert (isNil (group ++ token :: rest) = false) as ->
        by (destruct group; reflexivity).
    simpl. rewrite IH. rewrite <- app_assoc. reflexivity.
Qed.

(** The sentences of what follows a sentence end come after those of what
    precedes it, and are those of the rest alone. *)
Lemma sentencesFrom_app pre rest cur :
  lastEndsSentence pre ->
  sentencesFrom (pre ++ rest) cur
  = sentencesFrom pre cur ++ sentencesFrom rest [].
Proof.
  intros (token & Hlast & Hend). revert cur.
  induction pre as [|x pre IH]; intros cur; [discriminate|].
  destruct pre as [|y pre].
  - simpl in Hlast. injection Hlast as ->.
    simpl. rewrite Hend. simpl. rewrite app_nil_r. reflexivity.
  - change (last (x :: y :: pre)) with (last (y :: pre)) in Hlast.
    specialize (IH Hlast).
    change ((x :: y :: pre) ++ rest) with (x :: ((y :: pre) ++ rest)).
    cbn [sentencesFrom].
    change (isNil ((y :: pre) ++ rest)) with false.
    change (isNil (y :: pre)) with false.
    destruct (endsSentence x || false).
    + rewrite IH, app_assoc. reflexivity.
    + apply IH.
Qed.

Lemma groupSentences_app pre rest :
  lastEndsSentence pre ->
  groupSentences (pre ++ rest)
  = groupSentences pre ++ groupSentences rest.
Proof.
  intros H. rewrite !groupSentences_sentencesFrom.
  apply sentencesFrom_app, H.
Qed.

Lemma lastChar_snoc s c :
  lastChar s = Some c <-> exists prefix, s = (prefix ++ String c EmptyString)%string.
Proof.
  split.
  - induction s as [|d r IH]; [discriminate|].
    destruct r as [|e r'].
    + simpl. intros [= ->]. exists EmptyString. reflexivity.
    + rewrite lastChar_cons by discriminate. intros H.
      destruct (IH H) as (prefix & E). exists (String d prefix).
      rewrite E. reflexivity.
  - intros (prefix & ->).
    induction prefix as [|d prefix IH]; [reflexivity|].
    change (String d prefix ++ String c EmptyString)%string
      with (String d (prefix ++ String c EmptyString)%string).
    rewrite lastChar_cons; [exact IH|].
    destruct prefix; discriminate.
Qed.

Lemma matchesSentenceEnd_spec s :
  matchesSentenceEnd s = true
  <-> exists prefix c,
        s = (prefix ++ String c EmptyString)%string
        /\ (c = "."%char \/ c = "!"%char \/ c = "?"%char).
Proof.
  unfold matchesSentenceEnd. split.
  - destruct (lastChar s) as [c|] eqn:Hl; [|discriminate].
    apply lastChar_snoc in Hl as (prefix & ->).
    rewrite !orb_true_iff, !Ascii.eqb_eq. intros H.
    exists prefix, c. split; [reflexivity | tauto].
  - intros (prefix & c & -> & Hc).
    assert (lastChar (prefix ++ String c EmptyString)%string = Some c) as ->
        by (apply lastChar_snoc; eauto).
    rewrite !orb_true_iff, !Ascii.eqb_eq. tauto.
Qed.

(** No token of an all-blank run ends a sentence, and its buffer is
    dropped. *)
Lemma allWhiteSpace_not_end token :
  allWhiteSpace (Token.text token) = true -> endsSentence token = false.
Proof.
  intros H. apply trim_empty in H. unfold endsSentence. rewrite H.
  reflexivity.
Qed.

Lemma sentenceText_blank cur :
  trim (join EmptyString (map Token.text cur)) = EmptyString ->
  sentenceText cur = EmptyString.
Proof. unfold sentenceText. intros ->. reflexivity. Qed.

Lemma closeSentence_blank cur token sentences :
  trim (join EmptyString (map Token.text cur)) = EmptyString ->
  closeSentence cur token sentences = sentences.
Proof.
  intros H. unfold closeSentence. rewrite (sentenceText_blank _ H).
  reflexivity.
Qed.

Lemma sentencesFrom_blank rest cur :
  trim (join EmptyString (map Token.text (cur ++ rest))) = EmptyString ->
  sentencesFrom rest cur = [].
Proof.
  revert cur. induction rest as [|token rest IH]; intros cur H.
  - reflexivity.
  - assert (endsSentence token = false) as Hend.
    { apply allWhiteSpace_not_end.
      apply trim_empty in H. rewrite allWhiteSpace_join in H.
      rewrite forallb_forall in H. apply H.
      apply in_map, in_or_app. right. left. reflexivity. }
    simpl. rewrite Hend. simpl.
    destruct rest as [|next rest].
    + simpl. rewrite closeSentence_blank by exact H. reflexivity.
    + simpl. apply IH. rewrite <- app_assoc. exact H.
Qed.

Lemma closeSentence_properText cur token :
  Forall properText (closeSentence cur token []).
Proof.
  unfold closeSentence.
  destruct (truthy (sentenceText cur)) eqn:Ht; [|constructor].
  repeat constructor; simpl.
  - intros E. rewrite E in Ht. discriminate.
  - apply trim_collapse_trim.
Qed.

Lemma sentencesFrom_properText rest cur :
  Forall properText (sentencesFrom rest cur).
Proof.
  revert cur. induction rest as [|token rest IH]; intros cur.
  - constructor.
  - simpl. destruct (endsSentence token || isNil rest).
    + apply Forall_app. split; [apply closeSentence_properText | apply IH].
    + apply IH.
Qed.

End Grouping.

(** ** Time order of the sentences *)

Section Chronology.

Lemma StronglySorted_pair {A} (R : relation A) (l : list A) i j a b :
  StronglySorted R l ->
  (i < j)%nat -> l !! i = Some a -> l !! j = Some b -> R a b.
Proof.
  revert i j. induction l as [|x l IH]; intros i j Hs Hij Ha Hb;
    [discriminate|].
  apply StronglySorted_inv in Hs as [Hs Hx].
  destruct j as [|j]; [lia|]. simpl in Hb.
  destruct i as [|i]; simpl in Ha.
  - injection Ha as ->. rewrite Forall_forall in Hx. apply Hx.
    eapply list_elem_of_lookup_2, Hb.
  - eapply (IH i j); [exact Hs | lia | exact Ha | exact Hb].
Qed.

Lemma closeSentence_starts cur token :
  exists L,
    map Sentence.start (closeSentence (cur ++ [token]) token [])
    = Math_round <$> L
    /\ L `sublist_of` map tokenStart (cur ++ [token]).
Proof.
  unfold closeSentence.
  destruct (truthy (sentenceText (cur ++ [token])));
    [|exists []; split; [reflexivity | apply sublist_nil_l]].
  exists [startOf (cur ++ [token])]. split; [reflexivity|].
  destruct cur as [|first cur]; [reflexivity|].
  simpl. unfold startOf. simpl. apply sublist_skip, sublist_nil_l.
Qed.

Lemma sentencesFrom_starts rest cur :
  exists L,
    map Sentence.start (sentencesFrom rest cur) = Math_round <$> L
    /\ L `sublist_of` map tokenStart (cur ++ rest).
Proof.
  revert cur. induction rest as [|token rest IH]; intros cur.
  - exists []. split; [reflexivity | apply sublist_nil_l].
  - simpl. destruct (endsSentence token || isNil rest).
    + destruct (closeSentence_starts cur token) as (L1 & E1 & S1).
      destruct (IH []) as (L2 & E2 & S2).
      exists (L1 ++ L2). split.
      * rewrite map_app, E1, E2, fmap_app. reflexivity.
      * change (cur ++ token :: rest) with (cur ++ [token] ++ rest).
        rewrite app_assoc, map_app. apply sublist_app; assumption.
    + destruct (IH (cur ++ [token])) as (L & E & HS).
      exists L. split; [exact E|].
      rewrite <- app_assoc in HS. exact HS.
Qed.

(** The starts of the sentences are rounded starts of tokens, in order. *)
Lemma groupSentences_starts_sorted transcription :
  startsOrdered transcription ->
  StronglySorted num_le (map Sentence.start (groupSentences transcription)).
Proof.
  intros Hord. rewrite groupSentences_sentencesFrom.
  destruct (sentencesFrom_starts transcription []) as (L & -> & HS).
  apply (StronglySorted_fmap _ num_le num_le); [apply Math_round_mono|].
  eapply StronglySorted_sublist; [exact HS|].
  apply Sorted_StronglySorted; [exact num_le_transitive|].
  apply nonDecreasing_Sorted, Hord.
Qed.

Lemma sorted_starts_only (out : list Sentence) i a b :
  StronglySorted num_le (map Sentence.start out) ->
  out !! i = Some a -> out !! S i = Some b ->
  num_le (Sentence.start a) (Sentence.start b).
Proof.
  revert i. induction out as [|s out IH]; intros i Hs Ha Hb; [discriminate|].
  simpl in Hs. apply StronglySorted_inv in Hs as [Hs Hx].
  simpl in Hb. destruct i as [|i]; simpl in Ha.
  - injection Ha as ->. rewrite Forall_forall in Hx. apply Hx.
    apply list_elem_of_In, in_map, list_elem_of_In.
    eapply list_elem_of_lookup_2, Hb.
  - eapply (IH i); eassumption.
Qed.

(** A sentence starts when a token of its buffer starts. *)
Lemma sentencesFrom_start_in rest cur s :
  s ∈ sentencesFrom rest cur ->
  exists b, b ∈ cur ++ rest /\ Sentence.start s = Math_round (tokenStart b).
Proof.
  revert cur. induction rest as [|token rest IH]; intros cur; cbn [sentencesFrom].
  - intros H. inversion H.
  - destruct (endsSentence token || isNil rest).
    + intros [H|H]%elem_of_app.
      * unfold closeSentence in H.
        destruct (truthy (sentenceText (cur ++ [token]))); [|inversion H].
        apply list_elem_of_singleton in H as ->. cbn [Sentence.start].
        destruct cur as [|first cur].
        -- exists token. split; [left | reflexivity].
        -- exists first. split; [left | reflexivity].
      * destruct (IH [] H) as (b & Hb & E). exists b. split; [|exact E].
        apply elem_of_app. right. right. exact Hb.
    + intros H. destruct (IH (cur ++ [token]) H) as (b & Hb & E).
      exists b. split; [|exact E]. rewrite <- app_assoc in Hb. exact Hb.
Qed.

(** A buffer is closed by a token that ends no earlier than the first token
    of the buffer starts: the sentence does not end before it starts. *)
Lemma sentencesFrom_start_le_end rest cur :
  startsBeforeLaterEnds (cur ++ rest) ->
  Forall fromBeforeTo rest ->
  Forall (fun s => num_le (Sentence.start s) (Sentence.end_ s))
         (sentencesFrom rest cur).
Proof.
  unfold startsBeforeLaterEnds.
  revert cur. induction rest as [|token rest IH]; intros cur Hs Hft.
  - constructor.
  - apply Forall_cons in Hft as [Htoken Hft]. cbn [sentencesFrom].
    destruct (endsSentence token || isNil rest).
    + apply Forall_app. split.
      * unfold closeSentence.
        destruct (truthy (sentenceText (cur ++ [token]))); [|constructor].
        constructor; [|constructor]. cbn [Sentence.start Sentence.end_].
        apply Math_round_mono.
        destruct cur as [|first cur]; [exact Htoken|].
        simpl in Hs. apply StronglySorted_inv in Hs as [_ Hfirst].
        rewrite Forall_forall in Hfirst. apply (Hfirst token).
        apply elem_of_app. right. left.
      * apply IH; [|exact Hft].
        eapply StronglySorted_sublist; [|exact Hs].
        apply sublist_inserts_l, sublist_cons. reflexivity.
    + apply IH; [|exact Hft]. rewrite <- app_assoc. exact Hs.
Qed.

(** A sentence is closed by a token that ends no later than the tokens
    after it start: the sentence ends no later than the later ones start. *)
Lemma sentencesFrom_no_overlap rest cur :
  endsBeforeLaterStarts (cur ++ rest) ->
  StronglySorted
    (fun s s' => num_le (Sentence.end_ s) (Sentence.start s'))
    (sentencesFrom rest cur).
Proof.
  unfold endsBeforeLaterStarts.
  revert cur. induction rest as [|token rest IH]; intros cur Hs.
  - constructor.
  - cbn [sentencesFrom]. destruct (endsSentence token || isNil rest).
    + assert (StronglySorted
                (fun a b => num_le (endOf a) (tokenStart b)) (token :: rest))
        as Hrest.
      { eapply StronglySorted_sublist; [|exact Hs].
        apply sublist_inserts_l. reflexivity. }
      apply StronglySorted_inv in Hrest as [Hrest Htoken].
      specialize (IH [] Hrest).
      unfold closeSentence.
      destruct (truthy (sentenceText (cur ++ [token]))); [|exact IH].
      constructor; [exact IH|].
      rewrite Forall_forall. intros s' Hs'.
      destruct (sentencesFrom_start_in rest [] s' Hs') as (b & Hb & ->).
      cbn [Sentence.end_]. apply Math_round_mono.
      rewrite Forall_forall in Htoken. apply Htoken, Hb.
    + apply IH. rewrite <- app_assoc. exact Hs.
Qed.

Lemma tokenTimes_elem (transcription : list Token) b :
  b ∈ transcription ->
  tokenStart b ∈ flat_map tokenTimes transcription
  /\ endOf b ∈ flat_map tokenTimes transcription.
Proof.
  intros H. apply list_elem_of_In in H.
  split; apply list_elem_of_In, in_flat_map; exists b;
    (split; [exact H | simpl; auto]).
Qed.

(** Tokens in time order: their starts are in order, none ends before it
    or an earlier one starts, and none starts before an earlier one has
    ended. *)
Lemma chronological_pairs transcription :
  chronological transcription ->
  startsOrdered transcription
  /\ Forall fromBeforeTo transcription
  /\ startsBeforeLaterEnds transcription
  /\ endsBeforeLaterStarts transcription.
Proof.
  intros Hchron.
  assert (StronglySorted num_le (flat_map tokenTimes transcription)) as Hs.
  { apply Sorted_StronglySorted; [exact num_le_transitive|].
    apply nonDecreasing_Sorted, Hchron. }
  split.
  { clear Hs. revert Hchron. unfold chronological, startsOrdered.
    induction transcription as [|a t IH]; [reflexivity|].
    destruct t as [|b t']; [reflexivity|].
    intros H.
    change (((tokenStart a <=? endOf a)%num
             && ((endOf a <=? tokenStart b)%num
                 && nonDecreasing (flat_map tokenTimes (b :: t')))) = true)
      in H.
    apply andb_true_iff in H as [Ha H].
    apply andb_true_iff in H as [Hab H].
    change (((tokenStart a <=? tokenStart b)%num
             && nonDecreasing (map tokenStart (b :: t'))) = true).
    rewrite (IH H), andb_true_r.
    exact (num_le_trans _ _ _ Ha Hab). }
  clear Hchron. unfold startsBeforeLaterEnds, endsBeforeLaterStarts.
  induction transcription as [|a t IH];
    [split; [|split]; constructor|].
  change (StronglySorted num_le
            (tokenStart a :: endOf a :: flat_map tokenTimes t)) in Hs.
  apply StronglySorted_inv in Hs as [Hs Hstart].
  apply StronglySorted_inv in Hs as [Hs Hend].
  destruct (IH Hs) as (Hft & H1 & H2).
  rewrite Forall_forall in Hstart, Hend.
  split; [|split].
  - constructor; [|exact Hft]. apply Hstart. left.
  - constructor; [exact H1|]. rewrite Forall_forall. intros b Hb.
    apply Hstart. right. apply (tokenTimes_elem t b Hb).
  - constructor; [exact H2|]. rewrite Forall_forall. intros b Hb.
    apply Hend. apply (tokenTimes_elem t b Hb).
Qed.

End Chronology.

(** ** Parsing timestamps *)

Section Timestamps.

Lemma split_first sep s : exists p ps, split sep s = p :: ps.
Proof.
  induction s as [|c r (p & ps & IH)]; simpl; [eauto|].
  destruct (Ascii.eqb c sep); [eauto|]. rewrite IH. eauto.
Qed.

Lemma split_without_separator sep s :
  occurs sep s = false -> split sep s = [s].
Proof.
  induction s as [|c r IH]; simpl; [reflexivity|].
  intros [Hc Hr]%orb_false_iff. rewrite Hc, (IH Hr). reflexivity.
Qed.

Lemma num_add_NaN_r a : (a + NaN)%num = NaN.
Proof. destruct a; reflexivity. Qed.

(** The [try] block always completes: the [catch] block is never run on
    a string. *)
Lemma timestampToSeconds_try_completes timestamp :
  exists seconds, timestampToSeconds_try timestamp = Normal seconds.
Proof.
  unfold timestampToSeconds_try.
  destruct (split_first "," timestamp) as (p & ps & ->). simpl. eauto.
Qed.

(** So nothing is ever printed. *)
Lemma timestampToSeconds_prints_nothing timestamp :
  snd (timestampToSeconds_run timestamp) = [].
Proof.
  unfold timestampToSeconds_run.
  destruct (timestampToSeconds_try_completes timestamp) as (v & ->).
  reflexivity.
Qed.

(** Without a comma there is no [ms], and [parseInt(undefined)] is
    [NaN]. *)
Lemma timestampToSeconds_without_comma timestamp :
  occurs "," timestamp = false ->
  timestampToSeconds_run timestamp = (NaN, []).
Proof.
  intros H. unfold timestampToSeconds_run, timestampToSeconds_try.
  rewrite (split_without_separator _ _ H).
  cbn [lookup list_lookup parseInt]. cbn [num_div].
  rewrite num_add_NaN_r. reflexivity.
Qed.

Lemma timestampToSeconds_wellformed_example :
  timestampToSeconds_run "00:01:02,500" = (Fin (125 # 2), []).
Proof. vm_compute. reflexivity. Qed.

End Timestamps.

(** ** Running the handler *)

Section Handler.

Lemma addEvents_addEvents e1 e2 w :
  addEvents e2 (addEvents e1 w) = addEvents (e1 ++ e2) w.
Proof. unfold addEvents. simpl. rewrite app_assoc. reflexivity. Qed.

Lemma bind_unfold {S A B} (m : M S A) (k : A -> M S B) s :
  bind m k s
  = match m s with
    | (Normal a, s') => k a s'
    | (Throw e, s') => (Throw e, s')
    end.
Proof. reflexivity. Qed.

Lemma inWorld_run {A} (m : M World A) locals w :
  inWorld m (locals, w) = (let (r, w') := m w in (r, (locals, w'))).
Proof. reflexivity. Qed.

Lemma emit_run ev w : emit ev w = (Normal tt, addEvents [ev] w).
Proof. reflexivity. Qed.

Lemma consoleLog_run label w :
  consoleLog label w = (Normal tt, addEvents [ConsoleLog label] w).
Proof. reflexivity. Qed.

Lemma consoleError_run label e w :
  consoleError label e w = (Normal tt, addEvents [ConsoleError label e] w).
Proof. reflexivity. Qed.

Lemma writeFileSync_run env path data w :
  writeFileSync env path data w
  = match writeFails env with
    | Some e => (Throw e, addEvents [FsWrite path] w)
    | None => (Normal tt, withFile path data (addEvents [FsWrite path] w))
    end.
Proof.
  unfold writeFileSync. rewrite bind_unfold, emit_run.
  destruct (writeFails env); reflexivity.
Qed.

Lemma unlinkSync_run env path w :
  unlinkSync env path w
  = match unlinkFails env path with
    | Some e => (Throw e, addEvents [FsUnlink path] w)
    | None =>
        match files w !! path with
        | Some _ =>
            (Normal tt, withoutFile path (addEvents [FsUnlink path] w))
        | None =>
            (Throw (noSuchFile path), addEvents [FsUnlink path] w)
        end
    end.
Proof.
  unfold unlinkSync. rewrite bind_unfold, emit_run.
  destruct (unlinkFails env path) as [e|]; [reflexivity|].
  rewrite bind_unfold. unfold gets.
  change (files (addEvents [FsUnlink path] w)) with (files w).
  destruct (files w !! path); reflexivity.
Qed.

Lemma guardedUnlink_run env label path w :
  tryCatch (unlinkSync env path)
           (fun error => consoleError label error) w
  = (Normal tt, afterUnlink env label path w).
Proof.
  unfold tryCatch, afterUnlink. rewrite unlinkSync_run.
  destruct (unlinkFails env path) as [e|].
  - rewrite consoleError_run, addEvents_addEvents. reflexivity.
  - destruct (files w !! path); [reflexivity|].
    rewrite consoleError_run, addEvents_addEvents. reflexivity.
Qed.

Lemma convertToWav_run env inputPath w :
  convertToWav env inputPath w
  = match ffmpeg env with
    | FfmpegEnd wav =>
        (Normal (wavPath env),
         afterUnlink env "Error cleaning up input file:" inputPath
           (withFile (wavPath env) wav
              (addEvents [FfmpegRun inputPath (wavPath env)] w)))
    | FfmpegError err (Some data) =>
        (Throw err,
         withFile (wavPath env) data
           (addEvents [FfmpegRun inputPath (wavPath env)] w))
    | FfmpegError err None =>
        (Throw err, addEvents [FfmpegRun inputPath (wavPath env)] w)
    end.
Proof.
  unfold convertToWav. fold (wavPath env).
  rewrite bind_unfold, emit_run.
  destruct (ffmpeg env) as [wav | err [data|]].
  - rewrite bind_unfold. unfold setFiles, modify.
    rewrite bind_unfold, guardedUnlink_run. reflexivity.
  - reflexivity.
  - reflexivity.
Qed.

Lemma relay_run values w :
  forEachM (fun progress => emit (EngineProgress progress) ;;
                            onProgress progress) values w
  = (Normal tt, addEvents (relayed values) w).
Proof.
  revert w. induction values as [|p values IH]; intros w.
  - destruct w. unfold addEvents. simpl. rewrite app_nil_r. reflexivity.
  - cbn [forEachM]. rewrite !bind_unfold, emit_run.
    unfold onProgress. rewrite bind_unfold, consoleLog_run, emit_run.
    rewrite IH, !addEvents_addEvents. reflexivity.
Qed.

Lemma transcribe_run env inputPath w :
  transcribe env inputPath onProgress w
  = (engineResult env,
     addEvents ([EngineStart inputPath] ++ relayed (engineProgress env)
                ++ [EngineEnd]) w).
Proof.
  unfold transcribe. rewrite bind_unfold, emit_run.
  rewrite bind_unfold, relay_run.
  rewrite bind_unfold, emit_run, !addEvents_addEvents.
  destruct (engineResult env); reflexivity.
Qed.

(** One statement of a block that acts on the world only. *)
Ltac run_in_world equation := rewrite bind_unfold, inWorld_run, equation.

Lemma tryBlock_run env audioData w :
  tryBlock env audioData (noLocals, w)
  = match writeFails env with
    | Some e =>
        (Throw e,
         ({| tempWebmFile := Some (recordingPath env);
             tempWavFile := None |},
          addEvents [FsWrite (recordingPath env)] w))
    | None =>
        match ffmpeg env with
        | FfmpegError e partialOutput =>
            (Throw e,
             ({| tempWebmFile := Some (recordingPath env);
                 tempWavFile := None |},
              afterFailedConversion env audioData partialOutput w))
        | FfmpegEnd wav =>
            let locals :=
              {| tempWebmFile := Some (recordingPath env);
                 tempWavFile := Some (wavPath env) |} in
            match engineResult env with
            | Throw e =>
                (Throw e, (locals, afterInference env audioData wav w))
            | Normal transcription =>
                (Normal (buildResult transcription),
                 (locals,
                  addEvents [ConsoleLog "Processed sentences:"]
                    (afterInference env audioData wav w)))
            end
        end
    end.
Proof.
  unfold tryBlock.
  rewrite bind_unfold.
  cbn [setTempWebmFile modify fst snd tempWavFile noLocals].
  run_in_world writeFileSync_run.
  destruct (writeFails env) as [e|]; [reflexivity|].
  do 2 run_in_world consoleLog_run.
  run_in_world convertToWav_run.
  unfold afterFailedConversion, afterInference.
  destruct (ffmpeg env) as [wav | err [data|]].
  - rewrite bind_unfold.
    cbn [setTempWavFile modify fst snd tempWebmFile].
    do 2 run_in_world consoleLog_run.
    run_in_world transcribe_run.
    rewrite !addEvents_addEvents.
    destruct (engineResult env) as [transcription|e].
    + run_in_world consoleLog_run.
      rewrite !addEvents_addEvents. reflexivity.
    + reflexivity.
  - rewrite !addEvents_addEvents. reflexivity.
  - rewrite !addEvents_addEvents. reflexivity.
Qed.

Lemma finallyBlock_run env locals w :
  finallyBlock env (locals, w)
  = (Normal tt,
     (locals,
      match tempWavFile locals with
      | Some p =>
          afterUnlink env "Error cleaning up temporary files:" p w
      | None => w
      end)).
Proof.
  unfold finallyBlock, tryCatch, afterUnlink.
  rewrite bind_unfold. cbn [gets fst].
  destruct (tempWavFile locals) as [p|]; [|reflexivity].
  rewrite inWorld_run, unlinkSync_run.
  destruct (unlinkFails env p) as [e|].
  - rewrite inWorld_run, consoleError_run, addEvents_addEvents.
    reflexivity.
  - destruct (files w !! p); [reflexivity|].
    rewrite inWorld_run, consoleError_run, addEvents_addEvents.
    reflexivity.
Qed.

(** The handler, case by case: the outcome and the world it leaves. *)
Lemma transcribeAudio_run env audioData w :
  transcribeAudio env audioData w
  = if negb (isWhisperInitialized w) then (Throw notInitialized, w)
    else
      match writeFails env with
      | Some e =>
          (Throw e,
           addEvents [FsWrite (recordingPath env);
                      ConsoleError "Transcription error:" e] w)
      | None =>
          match ffmpeg env with
          | FfmpegError e partialOutput =>
              (Throw e,
               addEvents [ConsoleError "Transcription error:" e]
                 (afterFailedConversion env audioData partialOutput w))
          | FfmpegEnd wav =>
              match engineResult env with
              | Throw e =>
                  (Throw e,
                   afterUnlink env "Error cleaning up temporary files:"
                     (wavPath env)
                     (addEvents [ConsoleError "Transcription error:" e]
                        (afterInference env audioData wav w)))
              | Normal transcription =>
                  (Normal (buildResult transcription),
                   afterUnlink env "Error cleaning up temporary files:"
                     (wavPath env)
                     (addEvents [ConsoleLog "Processed sentences:"]
                        (afterInference env audioData wav w)))
              end
          end
      end.
Proof.
  unfold transcribeAudio. rewrite bind_unfold. cbn [gets].
  destruct (isWhisperInitialized w); cbn [negb]; [|reflexivity].
  unfold withLocals, tryFinally, tryCatch.
  rewrite tryBlock_run.
  destruct (writeFails env) as [e|].
  { unfold catchBlock. run_in_world consoleError_run.
    cbn [throw]. rewrite finallyBlock_run. cbn [tempWavFile snd].
    rewrite addEvents_addEvents. reflexivity. }
  destruct (ffmpeg env) as [wav | e partialOutput].
  - cbv zeta. destruct (engineResult env) as [transcription|e].
    + rewrite finallyBlock_run. reflexivity.
    + unfold catchBlock. run_in_world consoleError_run.
      cbn [throw]. rewrite finallyBlock_run. reflexivity.
  - unfold catchBlock. run_in_world consoleError_run.
    cbn [throw]. rewrite finallyBlock_run. reflexivity.
Qed.

(** ['is-whisper-ready'] never fails and answers the current flag. *)
Lemma isWhisperReady_run w :
  isWhisperReady w
  = (Normal (isWhisperInitialized w),
     addEvents [ConsoleLog "Checking Whisper ready status:"] w).
Proof. reflexivity. Qed.

Lemma afterUnlink_trace env label path w :
  exists events,
    trace (afterUnlink env label path w) = trace w ++ events
    /\ forallb housekeeping events = true.
Proof.
  unfold afterUnlink.
  destruct (unlinkFails env path) as [e|]; [|destruct (files w !! path)];
    eexists; (split; [reflexivity|reflexivity]).
Qed.

Lemma afterUnlink_trace_cleanup env label path w :
  label <> "Transcription error:" ->
  exists events,
    trace (afterUnlink env label path w) = trace w ++ events
    /\ forallb housekeeping events = true
    /\ forallb notTranscriptionError events = true.
Proof.
  intros Hlabel. apply String.eqb_neq in Hlabel.
  unfold afterUnlink.
  destruct (unlinkFails env path) as [e|]; [|destruct (files w !! path)];
    eexists; (split; [reflexivity|]); (split; [reflexivity|]);
    unfold notTranscriptionError; cbn [forallb isTranscriptionError];
    rewrite ?Hlabel; reflexivity.
Qed.

Lemma relayed_not_transcriptionError values :
  forallb notTranscriptionError (relayed values) = true.
Proof. induction values as [|p values IH]; [reflexivity | exact IH]. Qed.

Lemma afterUnlink_ready env label path w :
  isWhisperInitialized (afterUnlink env label path w)
  = isWhisperInitialized w.
Proof.
  unfold afterUnlink.
  destruct (unlinkFails env path); [|destruct (files w !! path)];
    reflexivity.
Qed.

Lemma append_empty_l b : (EmptyString ++ b)%string = b.
Proof. reflexivity. Qed.

Lemma append_String c a b :
  (String c a ++ b)%string = String c (a ++ b)%string.
Proof. reflexivity. Qed.

Lemma append_nonempty_r a b :
  b <> EmptyString -> (a ++ b)%string <> EmptyString.
Proof.
  destruct a; [rewrite append_empty_l; auto|].
  rewrite append_String. discriminate.
Qed.

Lemma lastChar_append a b :
  b <> EmptyString -> lastChar (a ++ b)%string = lastChar b.
Proof.
  intros Hb. induction a as [|c a IH]; [reflexivity|].
  rewrite append_String, lastChar_cons; [exact IH|].
  apply append_nonempty_r, Hb.
Qed.

(** The recording and the WAV never share a name. *)
Lemma recordingPath_not_wavPath env : recordingPath env <> wavPath env.
Proof.
  intros E. apply (f_equal lastChar) in E. revert E.
  unfold recordingPath, wavPath, pathJoin.
  rewrite !lastChar_append
    by (repeat apply append_nonempty_r; discriminate).
  discriminate.
Qed.

(** A failed conversion leaves the recording on disk. *)
Lemma failed_conversion_keeps_recording env audioData w e partialOutput :
  isWhisperInitialized w = true ->
  writeFails env = None ->
  ffmpeg env = FfmpegError e partialOutput ->
  fst (transcribeAudio env audioData w) = Throw e
  /\ files (snd (transcribeAudio env audioData w)) !! recordingPath env
     = Some audioData
  /\ forallb housekeeping
       (drop (length (trace w))
             (trace (snd (transcribeAudio env audioData w)))) = true.
Proof.
  intros Hready Hwrite Hffmpeg.
  rewrite transcribeAudio_run, Hready, Hwrite, Hffmpeg. cbn [negb fst snd].
  split; [reflexivity|].
  unfold afterFailedConversion.
  destruct partialOutput as [data|]; cbn [files trace addEvents withFile].
  - split.
    + rewrite lookup_insert_ne
        by (intros E; symmetry in E; revert E;
            apply recordingPath_not_wavPath).
      apply lookup_insert_eq.
    + rewrite <- !app_assoc, drop_app_length. reflexivity.
  - split; [apply lookup_insert_eq|].
    rewrite <- !app_assoc, drop_app_length. reflexivity.
Qed.

End Handler.

(** ** Progress: from the engine to the callbacks *)

Section Progress.





Lemma observed_by_listeners callback progress
    (ls : list Preload.Listener) :
  map snd (filter (fun o : Preload.Callback * num => fst o = callback)
             (map (fun l => (Preload.wraps l, progress)) ls))
  = map (fun _ => progress)
      (filter (fun l => Preload.wraps l = callback) ls).
Proof.
  induction ls as [|l ls IH]; [reflexivity|].
  simpl. rewrite !filter_cons. simpl.
  destruct (decide (Preload.wraps l = callback)); simpl; rewrite IH;
    reflexivity.
Qed.



Lemma receive_observedBy_general callback progress r :
  Preload.observedBy callback (Preload.receive progress r)
  = Preload.observedBy callback r
    ++ repeat progress (registrations callback r).
Proof.
  unfold registrations, Preload.observedBy, Preload.receive. simpl.
  rewrite filter_app, map_app, observed_by_listeners. f_equal.
  induction (filter _ (Preload.listeners r)) as [|l ls IH];
    [reflexivity|].
  simpl. rewrite IH. reflexivity.
Qed.


Lemma removeListener_fresh listener (ls : list Preload.Listener) :
  Forall (fun l => Preload.identity l <> Preload.identity listener) ls ->
  Preload.removeListener listener ls = ls.
Proof.
  induction 1 as [|l ls Hl _ IH]; [reflexivity|].
  simpl. rewrite IH.
  destruct (existsb (Preload.sameFunction listener) ls); [reflexivity|].
  unfold Preload.sameFunction.
  destruct (Nat.eqb_spec (Preload.identity listener) (Preload.identity l));
    [congruence | reflexivity].
Qed.

(** The listener [offTranscriptionProgress] asks to remove is a new
    function object, so nothing is removed. *)
Lemma offTranscriptionProgress_removes_nothing callback r :
  Preload.wellFormed r ->
  Preload.listeners (Preload.offTranscriptionProgress callback r)
  = Preload.listeners r.
Proof.
  intros Hwf. unfold Preload.offTranscriptionProgress. simpl.
  apply removeListener_fresh.
  eapply Forall_impl; [exact Hwf|].
  intros l Hl. unfold Preload.newListener. simpl in *. lia.
Qed.

Lemma onTranscriptionProgress_wellFormed callback r :
  Preload.wellFormed r ->
  Preload.wellFormed (Preload.onTranscriptionProgress callback r).
Proof.
  unfold Preload.wellFormed, Preload.onTranscriptionProgress, Preload.on.
  simpl. intros Hwf. apply Forall_app. split.
  - eapply Forall_impl; [exact Hwf|]. intros l Hl. simpl in *. lia.
  - repeat constructor.
Qed.

Lemma offTranscriptionProgress_wellFormed callback r :
  Preload.wellFormed r ->
  Preload.wellFormed (Preload.offTranscriptionProgress callback r).
Proof.
  intros Hwf. unfold Preload.wellFormed.
  rewrite offTranscriptionProgress_removes_nothing by exact Hwf.
  simpl. eapply Forall_impl; [exact Hwf|]. intros l Hl. simpl in *. lia.
Qed.

(** Each mount adds a listener that no unmount takes away. *)
Lemma mountAndUnmount_accumulates callback n r :
  Preload.wellFormed r ->
  Preload.wellFormed (Nat.iter n (mountAndUnmount callback) r)
  /\ length (Preload.listeners (Nat.iter n (mountAndUnmount callback) r))
     = (n + length (Preload.listeners r))%nat.
Proof.
  intros Hwf.
  induction n as [|n [IHwf IHlen]]; [split; [exact Hwf|reflexivity]|].
  rewrite Nat.iter_succ.
  set (r' := Nat.iter n (mountAndUnmount callback) r) in *.
  unfold mountAndUnmount. split.
  - apply offTranscriptionProgress_wellFormed,
      onTranscriptionProgress_wellFormed, IHwf.
  - rewrite offTranscriptionProgress_removes_nothing
      by apply onTranscriptionProgress_wellFormed, IHwf.
    unfold Preload.onTranscriptionProgress, Preload.on.
    cbn [Preload.listeners]. rewrite length_app, IHlen. simpl. lia.
Qed.

End Progress.


(* ===================================================================== *)
(** * Properties of the specification *)
(* ===================================================================== *)

(** C1 (the code departs from it).  [timestampToSeconds] on a timestamp
    without its comma, ["00:01:02500"]: the [try] block completes, the
    value returned is [NaN] and nothing is printed; the value is not 0. *)
Theorem timestampToSeconds_missing_comma :
  timestampToSeconds_try "00:01:02500" = Normal NaN
  /\ timestampToSeconds_run "00:01:02500" = (NaN, [])
  /\ timestampToSeconds "00:01:02500" <> Fin 0.
Proof.
  split; [|split].
  - vm_compute. reflexivity.
  - apply timestampToSeconds_without_comma. reflexivity.
  - vm_compute. discriminate.
Qed.

(** C2 (the code departs from it).  When ffmpeg reports an error the call
    fails with that error and the engine is never started, but the recording
    written at the start of the call is still on disk when the call returns:
    the [finally] block unlinks [tempWavFile] only, which is still [null]. *)
Theorem conversion_failure_leaves_recording :
  let run := transcribeAudio envConversionFails sampleAudio readyWorld in
  fst run = Throw (Error "spawn ENOENT")
  /\ files (snd run) !! "/tmp/recording-1000.webm" = Some sampleAudio
  /\ trace (snd run)
     = [ FsWrite "/tmp/recording-1000.webm";
         ConsoleLog "Saved WebM file:";
         ConsoleLog "Converting to WAV...";
         FfmpegRun "/tmp/recording-1000.webm" "/tmp/1200.wav";
         ConsoleError "Transcription error:" (Error "spawn ENOENT") ].
Proof.
  cbv zeta.
  destruct (failed_conversion_keeps_recording envConversionFails sampleAudio
              readyWorld (Error "spawn ENOENT") None
              eq_refl eq_refl eq_refl) as (Hout & Hfile & _).
  split; [exact Hout|]. split; [exact Hfile|].
  vm_compute. reflexivity.
Qed.

(** C3 (the code departs from it).  After [onTranscriptionProgress(cb)],
    [offTranscriptionProgress(cb)] leaves the listener in place, and [cb] is
    still called with the next progress value. *)
Theorem offTranscriptionProgress_leaves_listener :
  let registered := Preload.onTranscriptionProgress 0%nat Preload.initial in
  let removed := Preload.offTranscriptionProgress 0%nat registered in
  Preload.listeners removed = Preload.listeners registered
  /\ length (Preload.listeners removed) = 1%nat
  /\ Preload.observedBy 0%nat (Preload.receive (Fin (1 # 2)) removed)
     = [Fin (1 # 2)].
Proof.
  cbv zeta. split; [|split].
  - apply offTranscriptionProgress_removes_nothing.
    apply onTranscriptionProgress_wellFormed. constructor.
  - reflexivity.
  - reflexivity.
Qed.

(** C4.  While the readiness flag is false, a transcribe call fails at once
    with the not-initialized error and the world is left exactly as it was:
    no file is created and nothing is printed or sent. *)
Theorem not_ready_call_rejected (env : Env) (audioData : bytes) (w : World) :
  isWhisperInitialized w = false ->
  transcribeAudio env audioData w = (Throw notInitialized, w).
Proof.
  intros Hready. rewrite transcribeAudio_run, Hready. reflexivity.
Qed.

Lemma not_ready_call_rejected_witness :
  isWhisperInitialized startingWorld = false
  /\ transcribeAudio envSuccess sampleAudio startingWorld
     = (Throw notInitialized, startingWorld).
Proof.
  split; [reflexivity|].
  apply (not_ready_call_rejected envSuccess sampleAudio startingWorld).
  reflexivity.
Defined.

(** C5, as it fails.  One token whose [from] is after its [to]: the sentence
    pushed starts at 5 and ends at 1.  Two tokens in one sentence, each
    ending after it starts, the second before the first: the sentence starts
    at 5 and ends at 2.  And two tokens that overlap, each ending after it
    starts, their starts in order: the first sentence ends at 5, after the
    second has started at 3. *)
Lemma start_after_end_for_backward_token :
  groupSentences [mkToken "Hi." "00:00:05,000" "00:00:01,000"]
  = [ {| Sentence.text := "Hi.";
         Sentence.start := Fin 5;
         Sentence.end_ := Fin 1 |} ]
  /\ ~ Forall (fun s => (Sentence.start s <=? Sentence.end_ s)%num = true)
         (groupSentences [mkToken "Hi." "00:00:05,000" "00:00:01,000"])
  /\ groupSentences [ mkToken "Late" "00:00:05,000" "00:00:06,000";
                      mkToken " soon." "00:00:01,000" "00:00:02,000" ]
     = [ {| Sentence.text := "Late soon.";
            Sentence.start := Fin 5; Sentence.end_ := Fin 2 |} ]
  /\ (Fin 5 <=? Fin 2)%num = false
  /\ groupSentences overlapping
     = [ {| Sentence.text := "One.";
            Sentence.start := Fin 0; Sentence.end_ := Fin 5 |};
         {| Sentence.text := "Two.";
            Sentence.start := Fin 3; Sentence.end_ := Fin 6 |} ]
  /\ (Fin 5 <=? Fin 3)%num = false.
Proof.
  split; [vm_compute; reflexivity|].
  split; [|repeat split; vm_compute; reflexivity].
  intros H. apply Forall_inv in H. vm_compute in H. discriminate.
Qed.

(** C5, amended.  When no token ends before it or an earlier token starts,
    every sentence has [start <= end].  When no token starts before an
    earlier token has ended, a sentence ends no later than any later
    sentence starts.  Both conditions hold when the tokens are in time order
    (reading [from] then [to] of each token in turn never goes back).  And
    the sentences always come in the order of their tokens: those of the
    tokens up to a sentence end come first, followed by those of the tokens
    after it. *)
Theorem sentences_in_order_for_chronological_tokens
    (transcription : list Token) :
  (Forall fromBeforeTo transcription ->
   startsBeforeLaterEnds transcription ->
   Forall (fun s => (Sentence.start s <=? Sentence.end_ s)%num = true)
          (groupSentences transcription))
  /\ (endsBeforeLaterStarts transcription ->
      forall i j a b,
        (i < j)%nat ->
        groupSentences transcription !! i = Some a ->
        groupSentences transcription !! j = Some b ->
        (Sentence.end_ a <=? Sentence.start b)%num = true)
  /\ (chronological transcription ->
      Forall fromBeforeTo transcription
      /\ startsBeforeLaterEnds transcription
      /\ endsBeforeLaterStarts transcription)
  /\ (forall pre rest,
         transcription = pre ++ rest -> lastEndsSentence pre ->
         groupSentences transcription
         = groupSentences pre ++ groupSentences rest).
Proof.
  split; [|split; [|split]].
  - intros Hft Hs. rewrite groupSentences_sentencesFrom.
    apply sentencesFrom_start_le_end; assumption.
  - intros Hs i j a b Hij Ha Hb.
    rewrite groupSentences_sentencesFrom in Ha, Hb.
    exact (StronglySorted_pair _ _ i j a b
             (sentencesFrom_no_overlap transcription [] Hs) Hij Ha Hb).
  - intros Hchron. apply chronological_pairs, Hchron.
  - intros pre rest -> Hpre. apply groupSentences_app, Hpre.
Qed.

Lemma sentences_in_order_for_chronological_tokens_witness :
  Forall fromBeforeTo overlapping
  /\ startsBeforeLaterEnds overlapping
  /\ Forall (fun s => (Sentence.start s <=? Sentence.end_ s)%num = true)
            (groupSentences overlapping)
  /\ endsBeforeLaterStarts (helloWorld ++ thenMore)
  /\ (Fin 1 <=? Fin 1)%num = true.
Proof.
  assert (Forall fromBeforeTo overlapping) as H1
      by (repeat constructor; vm_compute; reflexivity).
  assert (startsBeforeLaterEnds overlapping) as H2
      by (repeat constructor; vm_compute; reflexivity).
  assert (endsBeforeLaterStarts (helloWorld ++ thenMore)) as H3
      by (repeat constructor; vm_compute; reflexivity).
  split; [exact H1|]. split; [exact H2|].
  split;
    [exact (proj1 (sentences_in_order_for_chronological_tokens overlapping)
              H1 H2)|].
  split; [exact H3|].
  exact (proj1 (proj2 (sentences_in_order_for_chronological_tokens
                         (helloWorld ++ thenMore)))
           H3 0%nat 1%nat
           {| Sentence.text := "Hello world.";
              Sentence.start := Fin 0; Sentence.end_ := Fin 1 |}
           {| Sentence.text := "Then more";
              Sentence.start := Fin 1; Sentence.end_ := Fin 3 |}
           (le_n 1) eq_refl eq_refl).
Defined.

(** C6, as it fails.  Two sentences whose tokens are not in time order: the
    first starts at 5, the second at 1. *)
Lemma starts_out_of_order_for_unordered_tokens :
  let sentences :=
    groupSentences [ mkToken "Later." "00:00:05,000" "00:00:06,000";
                     mkToken "Sooner." "00:00:01,000" "00:00:02,000" ] in
  map Sentence.start sentences = [Fin 5; Fin 1]
  /\ ~ (forall i a b,
          sentences !! i = Some a -> sentences !! S i = Some b ->
          (Sentence.start a <=? Sentence.start b)%num = true).
Proof.
  cbv zeta. split; [vm_compute; reflexivity|].
  intros H.
  specialize (H 0%nat
                {| Sentence.text := "Later.";
                   Sentence.start := Fin 5; Sentence.end_ := Fin 6 |}
                {| Sentence.text := "Sooner.";
                   Sentence.start := Fin 1; Sentence.end_ := Fin 2 |}
                eq_refl eq_refl).
  vm_compute in H. discriminate.
Qed.

(** C6, amended.  When the starts of the tokens are in order (the time read
    from [from] of each token is a number no greater than that of the next),
    each sentence starts no later than the next one; the ends of the tokens
    play no part. *)
Theorem starts_nondecreasing_for_ordered_starts
    (transcription : list Token) (i : nat) (a b : Sentence) :
  startsOrdered transcription ->
  groupSentences transcription !! i = Some a ->
  groupSentences transcription !! S i = Some b ->
  (Sentence.start a <=? Sentence.start b)%num = true.
Proof.
  intros Hord Ha Hb.
  exact (sorted_starts_only _ i a b (groupSentences_starts_sorted _ Hord)
           Ha Hb).
Qed.

Lemma starts_nondecreasing_for_ordered_starts_witness :
  startsOrdered overlapping
  /\ (Fin 0 <=? Fin 3)%num = true.
Proof.
  assert (startsOrdered overlapping) as H by (vm_compute; reflexivity).
  split; [exact H|].
  exact (starts_nondecreasing_for_ordered_starts overlapping 0
           {| Sentence.text := "One.";
              Sentence.start := Fin 0; Sentence.end_ := Fin 5 |}
           {| Sentence.text := "Two.";
              Sentence.start := Fin 3; Sentence.end_ := Fin 6 |}
           H eq_refl eq_refl).
Defined.

(** C7.  Every sentence pushed has a text that is not empty and is already
    trimmed; a run of tokens whose joined text is blank, at the start or
    after a sentence end, pushes nothing, so that no token of it closes a
    sentence and the forced close at the last one emits no sentence; no
    token gives no sentence and the empty text. *)
Theorem sentence_text_never_empty :
  (forall transcription,
      Forall (fun s => Sentence.text s <> EmptyString
                       /\ trim (Sentence.text s) = Sentence.text s)
             (groupSentences transcription))
  /\ (forall pre blank,
         pre = [] \/ lastEndsSentence pre ->
         trim (join EmptyString (map Token.text blank)) = EmptyString ->
         groupSentences (pre ++ blank) = groupSentences pre)
  /\ groupSentences [] = []
  /\ buildResult [] = {| text := EmptyString; tokens := [] |}.
Proof.
  split; [|split; [|split]].
  - intros transcription. rewrite groupSentences_sentencesFrom.
    apply sentencesFrom_properText.
  - intros pre blank Hpre Hblank.
    assert (groupSentences blank = []) as Hnone.
    { rewrite groupSentences_sentencesFrom. apply sentencesFrom_blank.
      exact Hblank. }
    destruct Hpre as [-> | Hpre]; [exact Hnone|].
    rewrite groupSentences_app by exact Hpre.
    rewrite Hnone, app_nil_r. reflexivity.
  - reflexivity.
  - reflexivity.
Qed.

Lemma sentence_text_never_empty_witness :
  lastEndsSentence helloWorld
  /\ trim (join EmptyString (map Token.text
                        [mkToken "  " "00:00:01,000" "00:00:01,500";
                         mkToken " " "00:00:01,500" "00:00:02,000"]))
     = EmptyString
  /\ groupSentences
       (helloWorld ++ [mkToken "  " "00:00:01,000" "00:00:01,500";
                       mkToken " " "00:00:01,500" "00:00:02,000"])
     = groupSentences helloWorld.
Proof.
  assert (lastEndsSentence helloWorld) as H1
      by (eexists; split; reflexivity).
  split; [exact H1|]. split; [reflexivity|].
  apply (proj1 (proj2 sentence_text_never_empty)).
  - right. exact H1.
  - reflexivity.
Defined.

(** C8.  A token closes the sentence exactly when its trimmed text ends in
    [.], [!] or [?], or it is the last token: a run of tokens none of which
    ends a sentence, followed by one that does or is the last, makes one
    buffer.  Its text is the token texts joined with nothing in between,
    trimmed, white space collapsed; if that is not empty, one sentence is
    pushed whose start is the rounded time of [from] of the first token and
    whose end is the rounded time of [to] of the closing token (an empty
    timestamp counts as 0).  The two scenarios of the specification
    follow.  Collapsed: the text is the words of the joined token texts,
    the maximal runs of characters that are not white space, with one space
    between them.  Rounded: the time is the whole number of seconds at most
    a half below the parsed time and less than a half above it, and a time
    that is not a number stays so.  A third scenario has runs of white space
    and times that are not whole seconds. *)
Theorem sentence_boundaries_and_content :
  (forall s,
      matchesSentenceEnd s = true
      <-> exists prefix c,
            s = (prefix ++ String c EmptyString)%string
            /\ (c = "."%char \/ c = "!"%char \/ c = "?"%char))
  /\ (forall group token rest,
         Forall (fun x => matchesSentenceEnd (trim (Token.text x)) = false)
                group ->
         matchesSentenceEnd (trim (Token.text token)) = true \/ rest = [] ->
         groupSentences (group ++ token :: rest)
         = (let text :=
              collapseWhiteSpace
                (trim (join EmptyString (map Token.text (group ++ [token])))) in
            let first := hd token group in
            if truthy text
            then [ {| Sentence.text := text;
                      Sentence.start :=
                        Math_round
                          (secondsOrZero
                             (Token.from (Token.timestamps first)));
                      Sentence.end_ :=
                        Math_round
                          (secondsOrZero
                             (Token.to (Token.timestamps token))) |} ]
            else [])
           ++ groupSentences rest)
  /\ (forall ts,
         secondsOrZero ts
         = if isEmpty ts then Fin 0 else timestampToSeconds ts)
  /\ groupSentences helloWorld
     = [ {| Sentence.text := "Hello world.";
            Sentence.start := Fin 0; Sentence.end_ := Fin 1 |} ]
  /\ groupSentences noPunctuation
     = [ {| Sentence.text := "No punctuation here";
            Sentence.start := Fin 0; Sentence.end_ := Fin 2 |} ]
  /\ (forall s, collapseWhiteSpace (trim s) = join " " (wordsOf s))
  /\ (forall q,
         exists z,
           Math_round (Fin q) = num_of_Z z
           /\ (inject_Z z - (1 # 2) <= q)%Q /\ (q < inject_Z z + (1 # 2))%Q)
  /\ Math_round NaN = NaN
  /\ groupSentences unevenSpacing
     = [ {| Sentence.text := "So it goes!";
            Sentence.start := Fin 1; Sentence.end_ := Fin 3 |} ].
Proof.
  split; [exact matchesSentenceEnd_spec|].
  split; [|split; [|split; [|split; [|split; [|split; [|split]]]]]];
    [| | | |exact collapse_trim_words|exact Math_round_nearest
     |reflexivity|vm_compute; reflexivity].
  - intros group token rest Hgroup Hlast.
    rewrite !groupSentences_sentencesFrom.
    rewrite (sentencesFrom_boundary group token rest [] Hgroup Hlast).
    f_equal. unfold closeSentence, sentenceText, startOf, endOf. cbv zeta.
    destruct group; reflexivity.
  - intros ts. unfold secondsOrZero, truthy. destruct ts; reflexivity.
  - vm_compute. reflexivity.
  - vm_compute. reflexivity.
Qed.

Lemma sentence_boundaries_and_content_witness :
  Forall (fun x => matchesSentenceEnd (trim (Token.text x)) = false)
         [mkToken "  So" "00:00:01,400" "00:00:01,900"]
  /\ matchesSentenceEnd
       (trim (Token.text
                (mkToken "   it  goes!  " "00:00:01,900" "00:00:02,500")))
     = true
  /\ groupSentences unevenSpacing
     = [ {| Sentence.text := "So it goes!";
            Sentence.start := Fin 1; Sentence.end_ := Fin 3 |} ].
Proof.
  assert (Forall (fun x => matchesSentenceEnd (trim (Token.text x)) = false)
                 [mkToken "  So" "00:00:01,400" "00:00:01,900"]) as H1
      by (repeat constructor).
  split; [exact H1|]. split; [reflexivity|].
  exact (eq_trans
           (proj1 (proj2 sentence_boundaries_and_content)
              [mkToken "  So" "00:00:01,400" "00:00:01,900"]
              (mkToken "   it  goes!  " "00:00:01,900" "00:00:02,500") []
              H1 (or_introl eq_refl))
           eq_refl).
Defined.




(** C10, as it fails.  A call in which ffmpeg fails and a call in which the
    engine fails, both with the error [spawn ENOENT], end in the same way:
    the failure that reaches the caller does not tell the stage. *)
Lemma same_failure_from_conversion_and_inference :
  ffmpeg envConversionFails = FfmpegError (Error "spawn ENOENT") None
  /\ ffmpeg envInferenceFails = FfmpegEnd []
  /\ engineResult envInferenceFails = Throw (Error "spawn ENOENT")
  /\ fst (transcribeAudio envConversionFails sampleAudio readyWorld)
     = Throw (Error "spawn ENOENT")
  /\ fst (transcribeAudio envInferenceFails sampleAudio readyWorld)
     = Throw (Error "spawn ENOENT")
  /\ fst (transcribeAudio envConversionFails sampleAudio readyWorld)
     = fst (transcribeAudio envInferenceFails sampleAudio readyWorld).
Proof. repeat split; vm_compute; reflexivity. Qed.

(** C10, amended.  A call fails exactly when the readiness flag is false or
    a step fails, and it fails with the very value that step threw, with
    nothing added: the fixed not-initialized error, else the error of the
    write, else the error of ffmpeg, else the error of the engine;
    otherwise it returns the sentences.  Failures of [unlinkSync] have no
    part in the outcome.  The not-initialized error is thrown before the
    [try]: it is not logged and the world is left as it was.  Every other
    failure is logged once by the [catch] block, as ["Transcription error:"]
    with the value thrown, before it is thrown again; only housekeeping of
    the [finally] block follows. *)
Theorem failures_reach_the_caller_unchanged
    (env : Env) (audioData : bytes) (w : World) :
  fst (transcribeAudio env audioData w)
  = (if negb (isWhisperInitialized w) then Throw notInitialized
     else match writeFails env with
          | Some e => Throw e
          | None =>
              match ffmpeg env with
              | FfmpegError e _ => Throw e
              | FfmpegEnd _ =>
                  match engineResult env with
                  | Throw e => Throw e
                  | Normal transcription =>
                      Normal (buildResult transcription)
                  end
              end
          end)
  /\ (isWhisperInitialized w = false ->
      snd (transcribeAudio env audioData w) = w)
  /\ (isWhisperInitialized w = true ->
      forall e,
        fst (transcribeAudio env audioData w) = Throw e ->
        exists before cleanup,
          newEvents w (snd (transcribeAudio env audioData w))
          = before ++ [ConsoleError "Transcription error:" e] ++ cleanup
          /\ forallb notTranscriptionError before = true
          /\ forallb housekeeping cleanup = true
          /\ forallb notTranscriptionError cleanup = true).
Proof.
  rewrite transcribeAudio_run. split; [|split].
  - destruct (isWhisperInitialized w); cbn [negb]; [|reflexivity].
    destruct (writeFails env); [reflexivity|].
    destruct (ffmpeg env); [|reflexivity].
    destruct (engineResult env); reflexivity.
  - intros ->. reflexivity.
  - intros -> e. cbn [negb]. unfold newEvents.
    destruct (writeFails env) as [e0|].
    { cbn [fst snd]. intros [= ->].
      exists [FsWrite (recordingPath env)], [].
      cbn [trace addEvents]. rewrite drop_app_length.
      repeat split; reflexivity. }
    destruct (ffmpeg env) as [wav | e0 partialOutput].
    + destruct (engineResult env) as [transcription|e0]; cbn [fst snd];
        [discriminate|]. intros [= ->].
      unfold afterInference.
      match goal with
      | |- context [afterUnlink env "Error cleaning up input file:" ?p ?w0] =>
          destruct (afterUnlink_trace_cleanup env
                      "Error cleaning up input file:" p w0
                      ltac:(discriminate))
            as (ev1 & E1 & Q1 & T1)
      end.
      cbn [trace addEvents withFile] in E1.
      match goal with
      | |- context [afterUnlink env "Error cleaning up temporary files:"
                               ?p ?w0] =>
          destruct (afterUnlink_trace_cleanup env
                      "Error cleaning up temporary files:" p w0
                      ltac:(discriminate))
            as (ev2 & E2 & Q2 & T2)
      end.
      cbn [trace addEvents] in E2. rewrite E2, E1.
      rewrite <- !app_assoc, drop_app_length.
      exists ([FsWrite (recordingPath env); ConsoleLog "Saved WebM file:";
               ConsoleLog "Converting to WAV...";
               FfmpegRun (recordingPath env) (wavPath env)]
              ++ ev1
              ++ [ConsoleLog "Converted to WAV:";
                  ConsoleLog "Starting transcription..."]
              ++ [EngineStart (wavPath env)] ++ relayed (engineProgress env)
              ++ [EngineEnd]), ev2.
      split; [rewrite <- !app_assoc; reflexivity|].
      split; [|split; assumption].
      rewrite !forallb_app, T1, relayed_not_transcriptionError. reflexivity.
    + cbn [fst snd]. intros [= ->].
      exists [FsWrite (recordingPath env); ConsoleLog "Saved WebM file:";
              ConsoleLog "Converting to WAV...";
              FfmpegRun (recordingPath env) (wavPath env)], [].
      split; [|repeat split; reflexivity].
      unfold afterFailedConversion.
      destruct partialOutput; cbn [trace addEvents withFile];
        rewrite <- !app_assoc, drop_app_length; reflexivity.
Qed.

Lemma failures_reach_the_caller_unchanged_witness :
  isWhisperInitialized readyWorld = true
  /\ fst (transcribeAudio envInferenceFails sampleAudio readyWorld)
     = Throw (Error "spawn ENOENT")
  /\ exists before cleanup,
       newEvents readyWorld
         (snd (transcribeAudio envInferenceFails sampleAudio readyWorld))
       = before ++ [ConsoleError "Transcription error:"
                      (Error "spawn ENOENT")] ++ cleanup
       /\ forallb notTranscriptionError before = true
       /\ forallb housekeeping cleanup = true
       /\ forallb notTranscriptionError cleanup = true.
Proof.
  split; [reflexivity|]. split; [reflexivity|].
  exact (proj2 (proj2 (failures_reach_the_caller_unchanged
                         envInferenceFails sampleAudio readyWorld))
           eq_refl (Error "spawn ENOENT") eq_refl).
Defined.

(* ===================================================================== *)
(** * Further properties of the code *)
(* ===================================================================== *)

(** ** The text of the result *)

Section ResultText.

Lemma withoutWhiteSpace_append a b :
  withoutWhiteSpace (a ++ b)%string
  = (withoutWhiteSpace a ++ withoutWhiteSpace b)%string.
Proof.
  induction a as [|c a IH]; [reflexivity|].
  rewrite append_String. simpl. rewrite IH.
  destruct (isWhiteSpace c); reflexivity.
Qed.

Lemma withoutWhiteSpace_trimStart s :
  withoutWhiteSpace (trimStart s) = withoutWhiteSpace s.
Proof.
  induction s as [|c r IH]; [reflexivity|].
  simpl. destruct (isWhiteSpace c) eqn:Hc; [exact IH|].
  simpl. rewrite Hc. reflexivity.
Qed.

Lemma withoutWhiteSpace_trimEnd s :
  withoutWhiteSpace (trimEnd s) = withoutWhiteSpace s.
Proof.
  induction s as [|c r IH]; [reflexivity|].
  simpl. destruct (isWhiteSpace c) eqn:Hc; simpl.
  - destruct (trimEnd r) eqn:Hr; simpl.
    + rewrite <- IH. reflexivity.
    + rewrite Hc. exact IH.
  - rewrite Hc, IH. reflexivity.
Qed.

Lemma withoutWhiteSpace_trim s :
  withoutWhiteSpace (trim s) = withoutWhiteSpace s.
Proof.
  unfold trim. rewrite withoutWhiteSpace_trimStart.
  apply withoutWhiteSpace_trimEnd.
Qed.

Lemma withoutWhiteSpace_collapse b s :
  withoutWhiteSpace (collapse_from b s) = withoutWhiteSpace s.
Proof.
  revert b. induction s as [|c r IH]; intros b; [reflexivity|].
  simpl. destruct (isWhiteSpace c) eqn:Hc.
  - destruct b; [apply IH|]. simpl. apply IH.
  - simpl. rewrite Hc, IH. reflexivity.
Qed.

Lemma join_cons sep p q rest :
  join sep (p :: q :: rest) = (p ++ sep ++ join sep (q :: rest))%string.
Proof. reflexivity. Qed.

Lemma append_empty_r a : (a ++ EmptyString)%string = a.
Proof.
  induction a as [|c a IH]; [reflexivity|].
  rewrite append_String, IH. reflexivity.
Qed.

Lemma append_assoc a b c :
  ((a ++ b) ++ c)%string = (a ++ b ++ c)%string.
Proof.
  induction a as [|d a IH]; [reflexivity|].
  rewrite !append_String, IH. reflexivity.
Qed.

Lemma join_nothing_cons p rest :
  join EmptyString (p :: rest) = (p ++ join EmptyString rest)%string.
Proof.
  destruct rest as [|q rest].
  - simpl. rewrite append_empty_r. reflexivity.
  - rewrite join_cons, append_empty_l. reflexivity.
Qed.

Lemma join_nothing_app a b :
  join EmptyString (a ++ b)
  = (join EmptyString a ++ join EmptyString b)%string.
Proof.
  induction a as [|p a IH]; [reflexivity|].
  change ((p :: a) ++ b) with (p :: (a ++ b)).
  rewrite !join_nothing_cons, IH, append_assoc. reflexivity.
Qed.

(** Joining with spaces or with nothing: the same text, white space
    apart. *)
Lemma withoutWhiteSpace_join_space parts :
  withoutWhiteSpace (join " " parts)
  = withoutWhiteSpace (join EmptyString parts).
Proof.
  induction parts as [|p parts IH]; [reflexivity|].
  destruct parts as [|q parts]; [reflexivity|].
  rewrite join_cons, join_nothing_cons.
  rewrite !withoutWhiteSpace_append, IH. reflexivity.
Qed.

Lemma withoutWhiteSpace_closeSentence cur token :
  withoutWhiteSpace
    (join EmptyString (map Sentence.text (closeSentence cur token [])))
  = withoutWhiteSpace (join EmptyString (map Token.text cur)).
Proof.
  assert (withoutWhiteSpace (sentenceText cur)
          = withoutWhiteSpace (join EmptyString (map Token.text cur))) as E.
  { unfold sentenceText, collapseWhiteSpace.
    rewrite withoutWhiteSpace_collapse. apply withoutWhiteSpace_trim. }
  unfold closeSentence.
  destruct (sentenceText cur) as [|c r] eqn:Ht; simpl.
  - exact E.
  - rewrite <- E. reflexivity.
Qed.

Lemma withoutWhiteSpace_sentencesFrom rest cur :
  rest <> [] ->
  withoutWhiteSpace
    (join EmptyString (map Sentence.text (sentencesFrom rest cur)))
  = withoutWhiteSpace (join EmptyString (map Token.text (cur ++ rest))).
Proof.
  revert cur. induction rest as [|token rest IH]; intros cur Hne;
    [congruence|].
  change (cur ++ token :: rest) with (cur ++ [token] ++ rest).
  rewrite app_assoc. cbn [sentencesFrom].
  destruct rest as [|next rest].
  - rewrite orb_true_r. cbn [sentencesFrom].
    rewrite !app_nil_r. apply withoutWhiteSpace_closeSentence.
  - cbn [isNil]. rewrite orb_false_r.
    destruct (endsSentence token).
    + rewrite map_app, join_nothing_app, withoutWhiteSpace_append.
      rewrite withoutWhiteSpace_closeSentence.
      rewrite (IH []) by discriminate.
      rewrite (map_app _ (cur ++ [token])), join_nothing_app.
      rewrite withoutWhiteSpace_append. reflexivity.
    + apply IH. discriminate.
Qed.

Lemma collapse_singleSpaced b s :
  singleSpaced_from b (collapse_from b s) = true.
Proof.
  revert b. induction s as [|c r IH]; intros b; [reflexivity|].
  simpl. destruct (isWhiteSpace c) eqn:Hc.
  - destruct b; [apply IH|]. simpl. apply IH.
  - simpl. rewrite Hc. apply IH.
Qed.

(** The state of [singleSpaced_from] after reading [a]. *)
Lemma singleSpaced_from_append p a b :
  singleSpaced_from p (a ++ b)%string
  = singleSpaced_from p a
    && singleSpaced_from
         (match lastChar a with Some c => isWhiteSpace c | None => p end) b.
Proof.
  revert p. induction a as [|c a IH]; intros p; [reflexivity|].
  rewrite append_String. cbn [singleSpaced_from].
  assert (match lastChar (String c a) with
          | Some d => isWhiteSpace d
          | None => p
          end
          = match lastChar a with
            | Some d => isWhiteSpace d
            | None => isWhiteSpace c
            end) as ->.
  { destruct a; [reflexivity|]. rewrite lastChar_cons by discriminate.
    destruct (lastChar (String a a0)) eqn:E; [reflexivity|].
    apply lastChar_None in E. discriminate. }
  destruct (isWhiteSpace c) eqn:Hc.
  - rewrite (IH true), <- !andb_assoc. reflexivity.
  - apply IH.
Qed.

Lemma sentenceText_tidy cur : tidy (sentenceText cur).
Proof.
  unfold sentenceText. split; [|split].
  - apply collapse_noLeading, trim_noLeading.
  - apply collapse_from_noTrailing, trim_noTrailing.
  - apply collapse_singleSpaced.
Qed.

Lemma join_first_nonempty sep p rest :
  p <> EmptyString -> join sep (p :: rest) <> EmptyString.
Proof.
  intros Hp. destruct rest as [|q rest]; [exact Hp|].
  rewrite join_cons. destruct p; [congruence|].
  rewrite append_String. discriminate.
Qed.

Lemma join_space_tidy parts :
  Forall (fun s => s <> EmptyString /\ tidy s) parts ->
  tidy (join " " parts).
Proof.
  induction 1 as [|p parts [Hp (Hl & Ht & Hs)] Hparts IH].
  - repeat split.
  - destruct parts as [|q parts]; [repeat split; assumption|].
    destruct IH as (Jl & Jt & Js).
    assert (join " " (q :: parts) <> EmptyString) as Hj.
    { apply join_first_nonempty. apply Forall_inv in Hparts. tauto. }
    rewrite join_cons. split; [|split].
    + destruct p; [congruence|]. rewrite append_String. exact Hl.
    + unfold noTrailingSpace.
      rewrite lastChar_append
        by (change (" " ++ join " " (q :: parts))%string
              with (String " " (join " " (q :: parts))); discriminate).
      change (" " ++ join " " (q :: parts))%string
        with (String " " (join " " (q :: parts))).
      rewrite lastChar_cons by exact Hj. exact Jt.
    + unfold singleSpaced in *. rewrite singleSpaced_from_append, Hs.
      unfold noTrailingSpace in Ht.
      destruct (lastChar p) as [c|] eqn:Hc;
        [|apply lastChar_None in Hc; congruence].
      rewrite Ht.
      change (" " ++ join " " (q :: parts))%string
        with (String " " (join " " (q :: parts))).
      cbn [singleSpaced_from andb]. change (isWhiteSpace " ") with true.
      cbn [Ascii.eqb negb andb].
      destruct (join " " (q :: parts)) as [|d r]; [congruence|].
      simpl in Jl. cbn [singleSpaced_from] in *. rewrite Jl in *. exact Js.
Qed.

Lemma closeSentence_tidy cur token :
  Forall (fun s => Sentence.text s <> EmptyString /\ tidy (Sentence.text s))
         (closeSentence cur token []).
Proof.
  unfold closeSentence.
  destruct (truthy (sentenceText cur)) eqn:Ht; [|constructor].
  repeat constructor; simpl; try apply sentenceText_tidy.
  intros E. rewrite E in Ht. discriminate.
Qed.

Lemma sentencesFrom_tidy rest cur :
  Forall (fun s => Sentence.text s <> EmptyString /\ tidy (Sentence.text s))
         (sentencesFrom rest cur).
Proof.
  revert cur. induction rest as [|token rest IH]; intros cur; [constructor|].
  simpl. destruct (endsSentence token || isNil rest); [|apply IH].
  apply Forall_app. split; [apply closeSentence_tidy | apply IH].
Qed.

Lemma sentencesFrom_length rest cur :
  (length (sentencesFrom rest cur)
   <= S (length (filter (fun t => endsSentence t = true) rest)))%nat
  /\ (length (sentencesFrom rest cur) <= length rest)%nat.
Proof.
  revert cur. induction rest as [|token rest IH]; intros cur.
  - simpl. split; lia.
  - assert (forall c, length (closeSentence c token []) <= 1)%nat as Hclose.
    { intros c. unfold closeSentence.
      destruct (truthy (sentenceText c)); simpl; lia. }
    cbn [sentencesFrom]. rewrite filter_cons.
    destruct (endsSentence token) eqn:He; cbn [orb].
    + destruct (decide (true = true)); [|congruence].
      rewrite length_app. cbn [length].
      specialize (Hclose (cur ++ [token])). destruct (IH []). split; lia.
    + destruct (decide (false = true)); [discriminate|].
      destruct rest as [|next rest].
      * cbn [isNil sentencesFrom]. rewrite app_nil_r.
        specialize (Hclose (cur ++ [token])). simpl. split; lia.
      * cbn [isNil]. destruct (IH (cur ++ [token])).
        cbn [length] in *. split; lia.
Qed.

Lemma withoutWhiteSpace_empty s :
  withoutWhiteSpace s = EmptyString <-> allWhiteSpace s = true.
Proof.
  induction s as [|c r IH]; simpl; [tauto|].
  destruct (isWhiteSpace c); simpl; [exact IH|].
  split; discriminate.
Qed.

Lemma result_text_keeps_every_character_aux transcription :
  withoutWhiteSpace (text (buildResult transcription))
  = withoutWhiteSpace (join EmptyString (map Token.text transcription)).
Proof.
  unfold buildResult. cbn [text].
  rewrite withoutWhiteSpace_join_space, groupSentences_sentencesFrom.
  destruct transcription as [|token rest]; [reflexivity|].
  apply (withoutWhiteSpace_sentencesFrom (token :: rest) []). discriminate.
Qed.

(** X1.  The text returned is the text of the tokens, white space apart:
    no other character is lost, added or moved. *)
Theorem result_text_keeps_every_character (transcription : list Token) :
  withoutWhiteSpace (text (buildResult transcription))
  = withoutWhiteSpace (join EmptyString (map Token.text transcription)).
Proof. apply result_text_keeps_every_character_aux. Qed.

(** X2.  The text returned, and the text of every sentence, has no white
    space at either end, and inside only single spaces: no tab, no line
    break, no two spaces in a row. *)
Theorem result_text_is_tidy (transcription : list Token) :
  tidy (text (buildResult transcription))
  /\ Forall (fun s => tidy (Sentence.text s))
            (tokens (buildResult transcription)).
Proof.
  unfold buildResult. cbn [text tokens].
  rewrite groupSentences_sentencesFrom.
  pose proof (sentencesFrom_tidy transcription []) as H.
  split.
  - apply join_space_tidy. apply Forall_forall.
    intros s [x [-> Hx]]%list_elem_of_fmap.
    rewrite Forall_forall in H. apply H, Hx.
  - eapply Forall_impl; [exact H|]. intros s [_ Hs]. exact Hs.
Qed.

(** X3.  The call returns no sentence exactly when the text returned is
    empty, and exactly when the tokens hold nothing but white space. *)
Theorem no_sentence_iff_blank_tokens (transcription : list Token) :
  (tokens (buildResult transcription) = []
   <-> text (buildResult transcription) = EmptyString)
  /\ (tokens (buildResult transcription) = []
      <-> trim (join EmptyString (map Token.text transcription))
          = EmptyString).
Proof.
  assert (tokens (buildResult transcription) = []
          -> text (buildResult transcription) = EmptyString) as H1.
  { unfold buildResult. cbn [text tokens]. intros ->. reflexivity. }
  assert (text (buildResult transcription) = EmptyString
          -> trim (join EmptyString (map Token.text transcription))
             = EmptyString) as H2.
  { intros E. apply trim_empty, withoutWhiteSpace_empty.
    rewrite <- result_text_keeps_every_character_aux, E. reflexivity. }
  assert (trim (join EmptyString (map Token.text transcription))
          = EmptyString
          -> tokens (buildResult transcription) = []) as H3.
  { intros E. unfold buildResult. cbn [tokens].
    rewrite groupSentences_sentencesFrom. apply sentencesFrom_blank.
    exact E. }
  split; split; auto.
Qed.

Lemma no_sentence_iff_blank_tokens_witness :
  trim (join EmptyString (map Token.text blankTokens)) = EmptyString
  /\ tokens (buildResult blankTokens) = [].
Proof.
  split; [reflexivity|].
  exact (proj2 (proj2 (no_sentence_iff_blank_tokens blankTokens)) eq_refl).
Defined.

(** X4.  There are never more sentences than tokens, and at most one more
    than there are tokens ending a sentence. *)
Theorem sentences_bounded_by_tokens (transcription : list Token) :
  (length (groupSentences transcription) <= length transcription)%nat
  /\ (length (groupSentences transcription)
      <= S (length (filter (fun t => endsSentence t = true)
                           transcription)))%nat.
Proof.
  rewrite groupSentences_sentencesFrom.
  destruct (sentencesFrom_length transcription []). split; assumption.
Qed.

End ResultText.

(** ** Files, readiness and the trace *)

Section CallEffects.

Lemma wavPath_not_recordingPath env : wavPath env <> recordingPath env.
Proof. intros E. symmetry in E. revert E. apply recordingPath_not_wavPath. Qed.

Lemma afterUnlink_files_elsewhere env label path w p :
  p <> path -> files (afterUnlink env label path w) !! p = files w !! p.
Proof.
  intros Hp. unfold afterUnlink.
  destruct (unlinkFails env path); [reflexivity|].
  destruct (files w !! path); [|reflexivity].
  cbn [files withoutFile addEvents]. apply lookup_delete_ne. congruence.
Qed.

Lemma afterUnlink_removes env label path w :
  unlinkFails env path = None ->
  files (afterUnlink env label path w) = delete path (files w).
Proof.
  intros Hu. unfold afterUnlink. rewrite Hu.
  destruct (files w !! path) eqn:E; [reflexivity|].
  cbn [files addEvents]. symmetry. apply delete_id, E.
Qed.

Lemma afterUnlink_refused env label path w e :
  unlinkFails env path = Some e ->
  afterUnlink env label path w
  = addEvents [FsUnlink path; ConsoleError label e] w.
Proof. intros Hu. unfold afterUnlink. rewrite Hu. reflexivity. Qed.

Lemma last_two {A} (l : list A) a b : last (l ++ [a; b]) = Some b.
Proof.
  change [a; b] with ([a] ++ [b]). rewrite app_assoc. apply last_snoc.
Qed.

(** X5.  A call that gets through conversion leaves no temporary file when
    both unlinks go through: the disk is as it was before the call, whether
    the engine then succeeds or fails. *)
Theorem converted_call_restores_the_disk
    (env : Env) (audioData wav : bytes) (w : World) :
  isWhisperInitialized w = true ->
  writeFails env = None ->
  ffmpeg env = FfmpegEnd wav ->
  unlinkFails env (recordingPath env) = None ->
  unlinkFails env (wavPath env) = None ->
  files w !! recordingPath env = None ->
  files w !! wavPath env = None ->
  files (snd (transcribeAudio env audioData w)) = files w.
Proof.
  intros Hready Hwrite Hffmpeg Hu1 Hu2 Hf1 Hf2.
  rewrite transcribeAudio_run, Hready, Hwrite, Hffmpeg. cbn [negb].
  pose proof (recordingPath_not_wavPath env) as Hne.
  assert (delete (wavPath env)
            (delete (recordingPath env)
               (<[wavPath env := wav]>
                  (<[recordingPath env := audioData]> (files w))))
          = files w) as Hdisk.
  { apply map_eq. intros k.
    destruct (decide (k = wavPath env)) as [->|Hk1].
    - rewrite lookup_delete_eq. symmetry. exact Hf2.
    - rewrite lookup_delete_ne by congruence.
      destruct (decide (k = recordingPath env)) as [->|Hk2].
      + rewrite lookup_delete_eq. symmetry. exact Hf1.
      + rewrite lookup_delete_ne by congruence.
        rewrite !lookup_insert_ne by congruence. reflexivity. }
  destruct (engineResult env); cbn [snd];
    rewrite afterUnlink_removes by exact Hu2;
    cbn [files addEvents]; unfold afterInference; cbn [files addEvents];
    rewrite afterUnlink_removes by exact Hu1;
    cbn [files addEvents withFile]; exact Hdisk.
Qed.

Lemma converted_call_restores_the_disk_witness :
  isWhisperInitialized readyWorld = true
  /\ writeFails envSuccess = None
  /\ ffmpeg envSuccess = FfmpegEnd []
  /\ unlinkFails envSuccess (recordingPath envSuccess) = None
  /\ unlinkFails envSuccess (wavPath envSuccess) = None
  /\ files readyWorld !! recordingPath envSuccess = None
  /\ files readyWorld !! wavPath envSuccess = None
  /\ files (snd (transcribeAudio envSuccess sampleAudio readyWorld))
     = files readyWorld.
Proof.
  do 7 (split; [reflexivity|]).
  apply (converted_call_restores_the_disk envSuccess sampleAudio []
           readyWorld); reflexivity.
Defined.

(** X6.  Whatever happens in a call, it changes no file but its own two
    temporary files, it leaves the readiness flag as it was, and it only
    adds to the trace. *)
Theorem call_touches_only_its_temporary_files
    (env : Env) (audioData : bytes) (w : World) :
  let w' := snd (transcribeAudio env audioData w) in
  (forall p, p <> recordingPath env -> p <> wavPath env ->
             files w' !! p = files w !! p)
  /\ isWhisperInitialized w' = isWhisperInitialized w
  /\ exists events, trace w' = trace w ++ events.
Proof.
  cbv zeta. rewrite transcribeAudio_run.
  destruct (isWhisperInitialized w) eqn:Hready; cbn [negb];
    [|repeat split; [auto | exists []; rewrite app_nil_r; reflexivity]].
  destruct (writeFails env) as [e|];
    [repeat split; [auto | eexists; reflexivity]|].
  destruct (ffmpeg env) as [wav | e [data|]].
  - assert (forall label ev,
               let w2 := afterUnlink env label (wavPath env)
                           (addEvents [ev]
                              (afterInference env audioData wav w)) in
               (forall p, p <> recordingPath env -> p <> wavPath env ->
                          files w2 !! p = files w !! p)
               /\ isWhisperInitialized w2 = true
               /\ exists events, trace w2 = trace w ++ events) as Hcase.
    { intros label ev. cbv zeta. split; [|split].
      - intros p Hp1 Hp2. rewrite afterUnlink_files_elsewhere by exact Hp2.
        cbn [files addEvents]. unfold afterInference. cbn [files addEvents].
        rewrite afterUnlink_files_elsewhere by exact Hp1.
        cbn [files addEvents withFile].
        rewrite !lookup_insert_ne by congruence. reflexivity.
      - rewrite afterUnlink_ready. cbn [isWhisperInitialized addEvents].
        unfold afterInference. cbn [isWhisperInitialized addEvents].
        rewrite afterUnlink_ready. exact Hready.
      - match goal with
        | |- context [afterUnlink env label ?p ?w0] =>
            destruct (afterUnlink_trace env label p w0) as (ev2 & E2 & _)
        end.
        rewrite E2. cbn [trace addEvents]. unfold afterInference.
        cbn [trace addEvents].
        match goal with
        | |- context [afterUnlink env "Error cleaning up input file:"
                                 ?p ?w0] =>
            destruct (afterUnlink_trace env "Error cleaning up input file:"
                        p w0) as (ev1 & E1 & _)
        end.
        rewrite E1. cbn [trace addEvents withFile].
        eexists. rewrite <- !app_assoc. reflexivity. }
    destruct (engineResult env); cbn [snd]; apply Hcase.
  - cbn [snd]. unfold afterFailedConversion.
    cbn [files trace isWhisperInitialized addEvents withFile].
    split; [|split; [exact Hready|]].
    + intros p Hp1 Hp2. rewrite !lookup_insert_ne by congruence. reflexivity.
    + eexists. rewrite <- !app_assoc. reflexivity.
  - cbn [snd]. unfold afterFailedConversion.
    cbn [files trace isWhisperInitialized addEvents withFile].
    split; [|split; [exact Hready|]].
    + intros p Hp1 Hp2. rewrite !lookup_insert_ne by congruence. reflexivity.
    + eexists. rewrite <- !app_assoc. reflexivity.
Qed.

Lemma call_touches_only_its_temporary_files_witness :
  "/tmp/notes.txt" <> recordingPath envConversionFails
  /\ "/tmp/notes.txt" <> wavPath envConversionFails
  /\ files (snd (transcribeAudio envConversionFails sampleAudio readyWorld))
       !! "/tmp/notes.txt"
     = files readyWorld !! "/tmp/notes.txt".
Proof.
  split; [discriminate|]. split; [discriminate|].
  apply (proj1 (call_touches_only_its_temporary_files envConversionFails
                  sampleAudio readyWorld)); discriminate.
Defined.

(** X7.  The engine is started only in a call made when the flag is true,
    whose write went through and whose conversion ended well. *)
Theorem engine_started_only_after_conversion
    (env : Env) (audioData : bytes) (w : World) :
  existsb engineStarted
    (newEvents w (snd (transcribeAudio env audioData w))) = true ->
  isWhisperInitialized w = true
  /\ writeFails env = None
  /\ exists wav, ffmpeg env = FfmpegEnd wav.
Proof.
  unfold newEvents. rewrite transcribeAudio_run.
  destruct (isWhisperInitialized w) eqn:Hready; cbn [negb snd].
  2:{ rewrite drop_all. discriminate. }
  destruct (writeFails env) as [e|]; cbn [snd trace addEvents].
  { rewrite drop_app_length. discriminate. }
  destruct (ffmpeg env) as [wav | e partialOutput].
  - intros _. eauto.
  - cbn [snd]. unfold afterFailedConversion.
    destruct partialOutput; cbn [trace addEvents withFile];
      rewrite <- !app_assoc, drop_app_length; discriminate.
Qed.

Lemma engine_started_only_after_conversion_witness :
  existsb engineStarted
    (newEvents readyWorld
       (snd (transcribeAudio envSuccess sampleAudio readyWorld))) = true
  /\ isWhisperInitialized readyWorld = true.
Proof.
  assert (existsb engineStarted
            (newEvents readyWorld
               (snd (transcribeAudio envSuccess sampleAudio readyWorld)))
          = true) as H by (vm_compute; reflexivity).
  split; [exact H|].
  exact (proj1 (engine_started_only_after_conversion envSuccess sampleAudio
                  readyWorld H)).
Defined.

(** X8.  When the WAV cannot be unlinked at the end of a call, the call
    still ends as the engine did, the refusal is the last thing printed, and
    the WAV stays on disk. *)
Theorem wav_cleanup_failure_is_only_logged
    (env : Env) (audioData wav : bytes) (w : World) (e : exn) :
  isWhisperInitialized w = true ->
  writeFails env = None ->
  ffmpeg env = FfmpegEnd wav ->
  unlinkFails env (wavPath env) = Some e ->
  let run := transcribeAudio env audioData w in
  fst run
  = match engineResult env with
    | Normal transcription => Normal (buildResult transcription)
    | Throw failure => Throw failure
    end
  /\ last (trace (snd run))
     = Some (ConsoleError "Error cleaning up temporary files:" e)
  /\ files (snd run) !! wavPath env = Some wav.
Proof.
  intros Hready Hwrite Hffmpeg Hu. cbv zeta.
  rewrite transcribeAudio_run, Hready, Hwrite, Hffmpeg. cbn [negb].
  assert (files (afterInference env audioData wav w) !! wavPath env
          = Some wav) as Hwav.
  { unfold afterInference. cbn [files addEvents].
    rewrite afterUnlink_files_elsewhere by apply wavPath_not_recordingPath.
    cbn [files addEvents withFile]. apply lookup_insert_eq. }
  destruct (engineResult env); cbn [fst snd];
    rewrite (afterUnlink_refused _ _ _ _ e Hu);
    cbn [trace files addEvents];
    (split; [reflexivity|]);
    (split; [|exact Hwav]);
    apply last_two.
Qed.

Lemma wav_cleanup_failure_is_only_logged_witness :
  isWhisperInitialized readyWorld = true
  /\ writeFails envWavUnlinkFails = None
  /\ ffmpeg envWavUnlinkFails = FfmpegEnd []
  /\ unlinkFails envWavUnlinkFails (wavPath envWavUnlinkFails)
     = Some (Error "EPERM: operation not permitted, unlink")
  /\ fst (transcribeAudio envWavUnlinkFails sampleAudio readyWorld)
     = Normal (buildResult helloWorld)
  /\ files (snd (transcribeAudio envWavUnlinkFails sampleAudio readyWorld))
       !! "/tmp/1200.wav" = Some [].
Proof.
  destruct (wav_cleanup_failure_is_only_logged envWavUnlinkFails sampleAudio
              [] readyWorld (Error "EPERM: operation not permitted, unlink")
              eq_refl eq_refl eq_refl eq_refl) as (H1 & _ & H3).
  do 4 (split; [reflexivity|]).
  split; [exact H1 | exact H3].
Defined.

(** X9.  [convertToWav] resolves with the path of the WAV whenever ffmpeg
    ends, even if the input cannot be unlinked; the WAV is then on disk, and
    the input is gone unless its unlink was refused.  When ffmpeg fails the
    promise is rejected with ffmpeg's error and the input is kept. *)
Theorem convertToWav_outcome (env : Env) (inputPath : string) (w : World) :
  inputPath <> wavPath env ->
  let run := convertToWav env inputPath w in
  match ffmpeg env with
  | FfmpegEnd wav =>
      fst run = Normal (wavPath env)
      /\ files (snd run) !! wavPath env = Some wav
      /\ files (snd run) !! inputPath
         = match unlinkFails env inputPath with
           | Some _ => files w !! inputPath
           | None => None
           end
  | FfmpegError err _ =>
      fst run = Throw err
      /\ files (snd run) !! inputPath = files w !! inputPath
  end.
Proof.
  intros Hne. cbv zeta. rewrite convertToWav_run.
  destruct (ffmpeg env) as [wav | err [data|]]; cbn [fst snd].
  - split; [reflexivity|]. split.
    + rewrite afterUnlink_files_elsewhere by congruence.
      cbn [files addEvents withFile]. apply lookup_insert_eq.
    + destruct (unlinkFails env inputPath) as [e|] eqn:Hu.
      * rewrite (afterUnlink_refused _ _ _ _ e Hu).
        cbn [files addEvents withFile].
        apply lookup_insert_ne. congruence.
      * rewrite afterUnlink_removes by exact Hu. apply lookup_delete_eq.
  - split; [reflexivity|]. cbn [files addEvents withFile].
    apply lookup_insert_ne. congruence.
  - split; reflexivity.
Qed.

Lemma convertToWav_outcome_witness :
  "/tmp/recording-1000.webm" <> wavPath envSuccess
  /\ fst (convertToWav envSuccess "/tmp/recording-1000.webm" readyWorld)
     = Normal "/tmp/1200.wav".
Proof.
  assert ("/tmp/recording-1000.webm" <> wavPath envSuccess) as H
      by discriminate.
  split; [exact H|].
  exact (proj1 (convertToWav_outcome envSuccess "/tmp/recording-1000.webm"
                  readyWorld H)).
Defined.

End CallEffects.

(** ** Startup *)

Section Startup.

Lemma initWhisper_run setup w :
  initWhisper setup w
  = (Normal tt,
     match installWhisperCpp setup, downloadWhisperModel setup with
     | Some e, _ =>
         {| isWhisperInitialized := false;
            files := installLeaves setup (files w);
            trace := trace w
                     ++ [ConsoleLog "Starting Whisper initialization...";
                         ConsoleError "Error loading Whisper model:" e] |}
     | None, Some e =>
         {| isWhisperInitialized := false;
            files := downloadLeaves setup (installLeaves setup (files w));
            trace := trace w
                     ++ [ConsoleLog "Starting Whisper initialization...";
                         ConsoleError "Error loading Whisper model:" e] |}
     | None, None =>
         {| isWhisperInitialized := true;
            files := downloadLeaves setup (installLeaves setup (files w));
            trace := trace w
                     ++ [ConsoleLog "Starting Whisper initialization...";
                         ConsoleLog "Whisper model loaded successfully"] |}
     end).
Proof.
  destruct w as [r f t].
  unfold initWhisper, tryCatch, awaitInstaller.
  rewrite bind_unfold, consoleLog_run. rewrite bind_unfold.
  destruct (installWhisperCpp setup) as [e|].
  - cbn. rewrite <- app_assoc. reflexivity.
  - destruct (downloadWhisperModel setup) as [e|].
    + cbn. rewrite <- app_assoc. reflexivity.
    + cbn. rewrite <- app_assoc. reflexivity.
Qed.

(** X10.  [initWhisper] never throws.  It leaves the flag true exactly when
    both installers succeeded, whatever the flag was; and when the first
    installer fails the second is not run. *)
Theorem initWhisper_sets_the_flag (setup : Setup) (w : World) :
  let run := initWhisper setup w in
  fst run = Normal tt
  /\ isWhisperInitialized (snd run)
     = match installWhisperCpp setup, downloadWhisperModel setup with
       | None, None => true
       | _, _ => false
       end
  /\ files (snd run)
     = match installWhisperCpp setup with
       | Some _ => installLeaves setup (files w)
       | None => downloadLeaves setup (installLeaves setup (files w))
       end.
Proof.
  cbv zeta. rewrite initWhisper_run. cbn [fst snd].
  destruct (installWhisperCpp setup), (downloadWhisperModel setup);
    repeat split.
Qed.

(** X11.  After an installation that failed, the readiness query answers
    false and every transcribe call is rejected with the not-initialized
    error, leaving the world as it was. *)
Theorem failed_setup_rejects_every_call
    (setup : Setup) (w : World) (env : Env) (audioData : bytes) :
  installWhisperCpp setup <> None \/ downloadWhisperModel setup <> None ->
  let started := snd (initWhisper setup w) in
  fst (isWhisperReady started) = Normal false
  /\ transcribeAudio env audioData started = (Throw notInitialized, started).
Proof.
  intros Hfail. cbv zeta.
  assert (isWhisperInitialized (snd (initWhisper setup w)) = false) as Hflag.
  { rewrite initWhisper_run. cbn [snd].
    destruct (installWhisperCpp setup), (downloadWhisperModel setup);
      try reflexivity.
    destruct Hfail; congruence. }
  split.
  - rewrite isWhisperReady_run. cbn [fst]. rewrite Hflag. reflexivity.
  - rewrite transcribeAudio_run, Hflag. reflexivity.
Qed.

Lemma failed_setup_rejects_every_call_witness :
  (installWhisperCpp setupDownloadFails <> None
   \/ downloadWhisperModel setupDownloadFails <> None)
  /\ fst (transcribeAudio envSuccess sampleAudio
            (snd (initWhisper setupDownloadFails startingWorld)))
     = Throw notInitialized.
Proof.
  assert (installWhisperCpp setupDownloadFails <> None
          \/ downloadWhisperModel setupDownloadFails <> None) as H
      by (right; discriminate).
  split; [exact H|].
  exact (f_equal fst
           (proj2 (failed_setup_rejects_every_call setupDownloadFails
                     startingWorld envSuccess sampleAudio H))).
Defined.

(** X12.  After an installation that succeeded, the readiness query answers
    true and a transcribe call is never rejected for readiness: it ends as
    its own steps do. *)
Theorem successful_setup_accepts_calls
    (setup : Setup) (w : World) (env : Env) (audioData : bytes) :
  installWhisperCpp setup = None ->
  downloadWhisperModel setup = None ->
  let started := snd (initWhisper setup w) in
  fst (isWhisperReady started) = Normal true
  /\ fst (transcribeAudio env audioData started)
     = match writeFails env with
       | Some e => Throw e
       | None =>
           match ffmpeg env with
           | FfmpegError e _ => Throw e
           | FfmpegEnd _ =>
               match engineResult env with
               | Throw e => Throw e
               | Normal transcription => Normal (buildResult transcription)
               end
           end
       end.
Proof.
  intros Hinstall Hdownload. cbv zeta.
  assert (isWhisperInitialized (snd (initWhisper setup w)) = true) as Hflag.
  { rewrite initWhisper_run, Hinstall, Hdownload. reflexivity. }
  split.
  - rewrite isWhisperReady_run. cbn [fst]. rewrite Hflag. reflexivity.
  - rewrite transcribeAudio_run, Hflag. cbn [negb].
    destruct (writeFails env); [reflexivity|].
    destruct (ffmpeg env); [|reflexivity].
    destruct (engineResult env); reflexivity.
Qed.

Lemma successful_setup_accepts_calls_witness :
  installWhisperCpp setupSucceeds = None
  /\ downloadWhisperModel setupSucceeds = None
  /\ fst (transcribeAudio envSuccess sampleAudio
            (snd (initWhisper setupSucceeds startingWorld)))
     = Normal (buildResult helloWorld).
Proof.
  split; [reflexivity|]. split; [reflexivity|].
  exact (proj2 (successful_setup_accepts_calls setupSucceeds startingWorld
                  envSuccess sampleAudio eq_refl eq_refl)).
Defined.

End Startup.

(** ** Listeners *)

Section Listeners.

Lemma registrations_mountAndUnmount callback r :
  Preload.wellFormed r ->
  registrations callback (mountAndUnmount callback r)
  = S (registrations callback r).
Proof.
  intros Hwf. unfold registrations, mountAndUnmount.
  rewrite offTranscriptionProgress_removes_nothing
    by apply onTranscriptionProgress_wellFormed, Hwf.
  unfold Preload.onTranscriptionProgress, Preload.on.
  cbn [Preload.listeners]. rewrite filter_app, length_app.
  rewrite filter_cons. cbn [Preload.wraps Preload.newListener].
  destruct (decide (callback = callback)); [|congruence].
  simpl. lia.
Qed.

Lemma registrations_after_mounts callback n r :
  Preload.wellFormed r ->
  registrations callback (Nat.iter n (mountAndUnmount callback) r)
  = (n + registrations callback r)%nat.
Proof.
  intros Hwf. induction n as [|n IH]; [reflexivity|].
  rewrite Nat.iter_succ, registrations_mountAndUnmount, IH; [reflexivity|].
  apply mountAndUnmount_accumulates, Hwf.
Qed.

(** X13.  A progress message calls a callback once for every listener that
    wraps it: registering the same callback again is not detected, and the
    callback is then called that many times with the same value. *)
Theorem callback_called_once_per_registration
    (callback : Preload.Callback) (progress : num) (r : Preload.Renderer) :
  Preload.observedBy callback (Preload.receive progress r)
  = Preload.observedBy callback r
    ++ repeat progress (registrations callback r)
  /\ registrations callback (Preload.onTranscriptionProgress callback r)
     = S (registrations callback r).
Proof.
  split; [apply receive_observedBy_general|].
  unfold registrations, Preload.onTranscriptionProgress, Preload.on.
  cbn [Preload.listeners]. rewrite filter_app, length_app, filter_cons.
  cbn [Preload.wraps Preload.newListener].
  destruct (decide (callback = callback)); [|congruence].
  simpl. lia.
Qed.

(** X14.  A component that has registered and "removed" its callback [n]
    times is called [n] times with each later progress value. *)
Theorem remounted_callback_called_n_times
    (callback : Preload.Callback) (n : nat) (progress : num) :
  Preload.observedBy callback
    (Preload.receive progress
       (Nat.iter n (mountAndUnmount callback) Preload.initial))
  = repeat progress n.
Proof.
  rewrite receive_observedBy_general.
  rewrite registrations_after_mounts by constructor.
  assert (Preload.observedBy callback
            (Nat.iter n (mountAndUnmount callback) Preload.initial) = [])
    as ->.
  { unfold Preload.observedBy.
    assert (Preload.observed
              (Nat.iter n (mountAndUnmount callback) Preload.initial) = [])
      as ->; [|reflexivity].
    induction n as [|n IH]; [reflexivity|].
    rewrite Nat.iter_succ. exact IH. }
  unfold registrations. simpl. rewrite Nat.add_0_r. reflexivity.
Qed.

End Listeners.

(** ** Well-formed and short timestamps *)

Section TimestampFormula.

Lemma digit_cases c :
  isDecimalDigit c = true ->
  c = "0"%char \/ c = "1"%char \/ c = "2"%char \/ c = "3"%char
  \/ c = "4"%char \/ c = "5"%char \/ c = "6"%char \/ c = "7"%char
  \/ c = "8"%char \/ c = "9"%char.
Proof.
  destruct c as [[] [] [] [] [] [] [] []]; cbv; intros H;
    try discriminate H; clear H;
    repeat ((left; reflexivity) || right); reflexivity.
Qed.

Ltac by_digit_cases c H :=
  destruct (digit_cases c H)
    as [-> | [-> | [-> | [-> | [-> | [-> | [-> | [-> | [-> | ->]]]]]]]]].

Lemma digit_not_space c : isDecimalDigit c = true -> isWhiteSpace c = false.
Proof. intros H. by_digit_cases c H; reflexivity. Qed.

Lemma digit_value c :
  isDecimalDigit c = true -> digitValue 10 c = Some (N_of_ascii c - 48)%N.
Proof. intros H. by_digit_cases c H; reflexivity. Qed.

Lemma readDigits_allDigits s acc count :
  allDigits s = true ->
  readDigits 10 acc count s
  = (decimalFrom acc s, (count + String.length s)%nat, EmptyString).
Proof.
  revert acc count. induction s as [|c r IH]; intros acc count.
  - intros _. simpl. rewrite Nat.add_0_r. reflexivity.
  - simpl allDigits. intros [Hc Hr]%andb_true_iff.
    cbn [readDigits]. rewrite (digit_value c Hc), (IH _ _ Hr).
    cbn [decimalFrom String.length]. rewrite Nat.add_succ_r. reflexivity.
Qed.

Lemma allDigits_lastChar s c :
  allDigits s = true -> lastChar s = Some c -> isDecimalDigit c = true.
Proof.
  induction s as [|d r IH]; [discriminate|].
  simpl allDigits. intros [Hd Hr]%andb_true_iff.
  destruct r as [|e r'].
  - simpl. intros [= <-]. exact Hd.
  - rewrite lastChar_cons by discriminate. apply IH, Hr.
Qed.

Lemma trim_allDigits s : allDigits s = true -> trim s = s.
Proof.
  intros H. apply trim_id.
  - destruct s as [|c r]; [exact I|]. simpl in *.
    apply andb_true_iff in H as [Hc _]. apply digit_not_space, Hc.
  - unfold noTrailingSpace. destruct (lastChar s) as [c|] eqn:E; [|exact I].
    apply digit_not_space. eapply allDigits_lastChar; eassumption.
Qed.

Lemma allDigits_without c s :
  isDecimalDigit c = false -> allDigits s = true -> occurs c s = false.
Proof.
  intros Hc. induction s as [|d r IH]; [reflexivity|].
  simpl. intros [Hd Hr]%andb_true_iff. rewrite (IH Hr), orb_false_r.
  destruct (Ascii.eqb_spec d c) as [->|]; [congruence | reflexivity].
Qed.

Lemma split_at_separator sep a b :
  occurs sep a = false ->
  split sep (a ++ String sep b)%string = a :: split sep b.
Proof.
  induction a as [|c a IH].
  - intros _. rewrite append_empty_l. simpl.
    rewrite Ascii.eqb_refl. reflexivity.
  - simpl occurs. intros [Hc Ha]%orb_false_iff.
    rewrite append_String. cbn [split]. rewrite Hc, (IH Ha). reflexivity.
Qed.

Lemma fin_eq p q : (p == q)%Q -> fin p = fin q.
Proof. intros H. unfold fin. rewrite (Qred_complete _ _ H). reflexivity. Qed.

Lemma readNonDecimal_digits c r :
  isDecimalDigit c = true -> allDigits r = true ->
  readNonDecimal (String c r) = None.
Proof.
  intros Hc Hr. by_digit_cases c Hc; try reflexivity.
  destruct r as [|d r']; [reflexivity|].
  simpl in Hr. apply andb_true_iff in Hr as [Hd _].
  by_digit_cases d Hd; reflexivity.
Qed.

Lemma readSign_digit c r :
  isDecimalDigit c = true -> readSign (String c r) = (false, String c r).
Proof. intros Hc. by_digit_cases c Hc; reflexivity. Qed.

Lemma digit_not_Infinity c r :
  isDecimalDigit c = true -> String.eqb (String c r) "Infinity" = false.
Proof. intros Hc. by_digit_cases c Hc; reflexivity. Qed.

(** [Number] of a run of decimal digits is the number they write. *)
Lemma Number_digits s :
  isDigits s = true ->
  Number s = fin (inject_Z (Z.of_N (decimalValue s))).
Proof.
  unfold isDigits. destruct s as [|c r]; [discriminate|].
  cbn [isEmpty negb andb]. intros Hs.
  pose proof Hs as Hall. simpl in Hall.
  apply andb_true_iff in Hall as [Hc Hr].
  unfold Number. rewrite (trim_allDigits _ Hs). cbn [isEmpty].
  rewrite (readNonDecimal_digits c r Hc Hr), (readSign_digit c r Hc).
  rewrite (digit_not_Infinity c r Hc).
  unfold readUnsignedDecimal.
  rewrite (readDigits_allDigits _ 0 0 Hs).
  cbn [Nat.add String.length readExponent].
  unfold Qneg_if, decimalValue. apply fin_eq.
  change (0 - Z.of_nat 0)%Z with 0%Z. simpl Qpower. ring.
Qed.

(** [parseInt] of a run of decimal digits is the number they write. *)
Lemma parseInt_digits s :
  isDigits s = true ->
  parseInt (Some s) = fin (inject_Z (Z.of_N (decimalValue s))).
Proof.
  unfold isDigits. destruct s as [|c r]; [discriminate|].
  cbn [isEmpty negb andb]. intros Hs.
  pose proof Hs as Hall. simpl in Hall.
  apply andb_true_iff in Hall as [Hc Hr].
  unfold parseInt, parseInt_string.
  assert (trimStart (String c r) = String c r) as ->.
  { simpl. rewrite (digit_not_space c Hc). reflexivity. }
  rewrite (readSign_digit c r Hc).
  assert (match String c r with
          | String "0" (String "x" r0) | String "0" (String "X" r0) =>
              (16%N, r0)
          | _ => (10%N, String c r)
          end = (10%N, String c r)) as ->.
  { by_digit_cases c Hc; try reflexivity.
    destruct r as [|d r']; [reflexivity|].
    simpl in Hr. apply andb_true_iff in Hr as [Hd _].
    by_digit_cases d Hd; reflexivity. }
  rewrite (readDigits_allDigits _ 0 0 Hs).
  cbn [Nat.add String.length]. reflexivity.
Qed.

Lemma occurs_append c a b :
  occurs c (a ++ b)%string = occurs c a || occurs c b.
Proof.
  induction a as [|d a IH]; [reflexivity|].
  rewrite append_String. simpl. rewrite IH, orb_assoc. reflexivity.
Qed.

Lemma isDigits_allDigits s : isDigits s = true -> allDigits s = true.
Proof. unfold isDigits. intros [_ H]%andb_true_iff. exact H. Qed.

Lemma decimalFrom_bound s acc :
  allDigits s = true ->
  (decimalFrom acc s < (acc + 1) * 10 ^ N.of_nat (String.length s))%N.
Proof.
  revert acc. induction s as [|c r IH]; intros acc.
  - intros _. simpl. lia.
  - simpl allDigits. intros [Hc Hr]%andb_true_iff.
    cbn [decimalFrom String.length]. specialize (IH (acc * 10 + (N_of_ascii c - 48))%N Hr).
    rewrite Nat2N.inj_succ, N.pow_succ_r'.
    assert (N_of_ascii c - 48 <= 9)%N as Hv
        by (by_digit_cases c Hc; vm_compute; discriminate).
    nia.
Qed.

(** A run of at most [k] digits writes a number below [10 ^ k]. *)
Lemma decimalValue_bound s k :
  isDigits s = true -> (String.length s <= k)%nat ->
  (decimalValue s < 10 ^ N.of_nat k)%N.
Proof.
  intros Hs Hk. pose proof (decimalFrom_bound s 0 (isDigits_allDigits _ Hs)) as H.
  unfold decimalValue. eapply N.lt_le_trans; [exact H|].
  rewrite N.mul_1_l. apply N.pow_le_mono_r; lia.
Qed.

Lemma num_mul_Z a b :
  (0 <= a * b < 2 ^ 52)%Z -> (num_of_Z a * num_of_Z b)%num = num_of_Z (a * b).
Proof.
  intros H. unfold num_of_Z at 1 2. cbn [num_mul].
  rewrite <- fin_inject_Z by exact H. apply fin_eq.
  rewrite inject_Z_mult. reflexivity.
Qed.

Lemma num_add_Z a b :
  (0 <= a + b < 2 ^ 52)%Z -> (num_of_Z a + num_of_Z b)%num = num_of_Z (a + b).
Proof.
  intros H. unfold num_of_Z at 1 2. cbn [num_add].
  rewrite <- fin_inject_Z by exact H. apply fin_eq.
  rewrite inject_Z_plus. reflexivity.
Qed.

Lemma Qred_half_more w : Qred (inject_Z w + (1 # 2)) = (2 * w + 1) # 2.
Proof.
  rewrite <- (Qcanon.Qred_identity ((2 * w + 1) # 2)).
  - apply Qred_complete. unfold Qeq, Qplus, inject_Z. cbn [Qnum Qden]. lia.
  - cbn [Qnum Qden]. rewrite Z.gcd_comm, Z.add_comm, (Z.mul_comm 2 w).
    rewrite Z.gcd_add_mult_diag_r. reflexivity.
Qed.

(** Whole seconds plus thousandths: the binary64 sum is within [2 ^ -27] of
    the exact one, and rounds to the nearest second as the exact one does. *)
Lemma seconds_plus_thousandths (w ms : Z) :
  (0 <= w < 2 ^ 26 - 1)%Z -> (0 <= ms < 1000)%Z ->
  exists r,
    (num_of_Z w + num_of_Z ms / num_of_Z 1000)%num = Fin r
    /\ (Qabs (r - (inject_Z w + inject_Z ms / 1000)) <= 1 # 2 ^ 27)%Q
    /\ Math_round (Fin r)
       = num_of_Z (w + if (500 <=? ms)%Z then 1 else 0).
Proof.
  intros Hw Hms. unfold num_of_Z at 2 3. cbn [num_div].
  change (Qsign (inject_Z 1000)) with Gt. cbv iota.
  change (inject_Z 1000) with 1000%Q.
  assert (0 <= inject_Z ms)%Q as Q0
      by (change 0%Q with (inject_Z 0); rewrite <- Zle_Qle; lia).
  assert (inject_Z ms <= 999)%Q as Q1
      by (change 999%Q with (inject_Z 999); rewrite <- Zle_Qle; lia).
  assert (0 <= inject_Z w)%Q as W0
      by (change 0%Q with (inject_Z 0); rewrite <- Zle_Qle; lia).
  assert (inject_Z w <= 67108862)%Q as W1
      by (change 67108862%Q with (inject_Z 67108862); rewrite <- Zle_Qle; lia).
  destruct (fin_small 0 (inject_Z ms / 1000))
    as (q1 & E1 & P1 & Err1 & Ex1).
  { lia. }
  { q_lra. }
  { change (inject_Z (2 ^ 0)) with 1%Q. q_lra. }
  change (halfUlp 0) with (1 # 18014398509481984)%Q in Err1.
  apply Qabs_Qle_condition in Err1.
  rewrite E1. unfold num_of_Z at 1. cbn [num_add].
  destruct (fin_small 26 (inject_Z w + q1)) as (r & E2 & P2 & Err2 & Ex2).
  { lia. }
  { lra. }
  { change (inject_Z (2 ^ 26)) with 67108864%Q. q_lra. }
  change (halfUlp 26) with (1 # 268435456)%Q in Err2.
  pose proof Err2 as Err2'. apply Qabs_Qle_condition in Err2'.
  exists r. split; [exact E2|]. split.
  { change (2 ^ 27)%positive with 134217728%positive.
    apply Qabs_Qle_condition. q_lra. }
  cbn [Math_round]. unfold num_of_Z. do 2 f_equal.
  destruct (Z.leb_spec 500 ms) as [Hge|Hlt].
  - destruct (Z.eq_dec ms 500%Z) as [->|Hne].
    + assert (q1 = 1 # 2) as ->.
      { rewrite Ex1; [reflexivity|]. exists (2 ^ 52)%Z. reflexivity. }
      rewrite Ex2.
      * rewrite Qred_half_more.
        rewrite (Qfloor_comp _ (inject_Z (w + 1))); [apply Qfloor_Z|].
        unfold Qeq, Qplus, inject_Z. cbn [Qnum Qden]. lia.
      * rewrite Qred_half_more. exists (2 ^ 26)%Z. reflexivity.
    + assert (501 <= inject_Z ms)%Q
          by (change 501%Q with (inject_Z 501); rewrite <- Zle_Qle; lia).
      apply Qfloor_between; rewrite ?inject_Z_plus;
        change (inject_Z 1) with 1%Q; q_lra.
  - assert (inject_Z ms <= 499)%Q
        by (change 499%Q with (inject_Z 499); rewrite <- Zle_Qle; lia).
    rewrite Z.add_0_r.
    apply Qfloor_between; rewrite ?inject_Z_plus;
      change (inject_Z 1) with 1%Q; q_lra.
Qed.

(** X15.  For a timestamp [HH:MM:SS,mmm] made of four runs of decimal
    digits, of at most four, two, two and three digits,
    [timestampToSeconds] prints nothing and returns a binary64 number within
    [2 ^ -27] of hours*3600 + minutes*60 + seconds + milliseconds/1000;
    [Math.round] of it is the whole number of seconds, plus one from 500
    milliseconds on. *)
Theorem wellformed_timestamp_in_seconds (hh mm ss ms : string) :
  isDigits hh = true -> isDigits mm = true ->
  isDigits ss = true -> isDigits ms = true ->
  (String.length hh <= 4)%nat -> (String.length mm <= 2)%nat ->
  (String.length ss <= 2)%nat -> (String.length ms <= 3)%nat ->
  let whole := (Z.of_N (decimalValue hh) * 3600
                + Z.of_N (decimalValue mm) * 60
                + Z.of_N (decimalValue ss))%Z in
  let thousandths := Z.of_N (decimalValue ms) in
  exists r,
    timestampToSeconds_run (hh ++ ":" ++ mm ++ ":" ++ ss ++ "," ++ ms)%string
    = (Fin r, [])
    /\ (Qabs (r - (inject_Z whole + inject_Z thousandths / 1000))
        <= 1 # 2 ^ 27)%Q
    /\ Math_round (Fin r)
       = num_of_Z (whole + if (500 <=? thousandths)%Z then 1 else 0).
Proof.
  intros Hh Hm Hs Hms Lh Lm Ls Lms whole thousandths.
  pose proof (isDigits_allDigits _ Hh) as Ah.
  pose proof (isDigits_allDigits _ Hm) as Am.
  pose proof (isDigits_allDigits _ Hs) as As.
  pose proof (isDigits_allDigits _ Hms) as Ams.
  pose proof (decimalValue_bound hh 4 Hh Lh) as Bh.
  pose proof (decimalValue_bound mm 2 Hm Lm) as Bm.
  pose proof (decimalValue_bound ss 2 Hs Ls) as Bs.
  pose proof (decimalValue_bound ms 3 Hms Lms) as Bms.
  change (10 ^ N.of_nat 4)%N with 10000%N in Bh.
  change (10 ^ N.of_nat 2)%N with 100%N in Bm, Bs.
  change (10 ^ N.of_nat 3)%N with 1000%N in Bms.
  set (time := (hh ++ String ":" (mm ++ String ":" ss))%string).
  assert ((hh ++ ":" ++ mm ++ ":" ++ ss ++ "," ++ ms)%string
          = (time ++ String "," ms)%string) as ->.
  { unfold time. rewrite !append_assoc, !append_String, !append_assoc.
    reflexivity. }
  assert (split "," (time ++ String "," ms) = [time; ms]) as Hsplit.
  { rewrite split_at_separator.
    - rewrite (split_without_separator _ ms); [reflexivity|].
      apply allDigits_without; [reflexivity | exact Ams].
    - unfold time. rewrite occurs_append. cbn [occurs].
      rewrite occurs_append. cbn [occurs].
      rewrite !(allDigits_without ",") by (reflexivity || assumption).
      reflexivity. }
  assert (split ":" time = [hh; mm; ss]) as Htime.
  { unfold time. rewrite split_at_separator
      by (apply allDigits_without; [reflexivity | exact Ah]).
    rewrite split_at_separator
      by (apply allDigits_without; [reflexivity | exact Am]).
    rewrite (split_without_separator _ ss); [reflexivity|].
    apply allDigits_without; [reflexivity | exact As]. }
  assert (2 ^ 52 = 4503599627370496)%Z as P52 by reflexivity.
  destruct (seconds_plus_thousandths whole thousandths)
    as (r & Hr & Herr & Hround).
  { unfold whole. change (2 ^ 26 - 1)%Z with 67108863%Z. lia. }
  { unfold thousandths. lia. }
  exists r. split; [|split; assumption].
  unfold timestampToSeconds_run, timestampToSeconds_try.
  rewrite Hsplit. cbn [lookup list_lookup]. rewrite Htime.
  cbn [map lookup list_lookup toNumber].
  rewrite !Number_digits, parseInt_digits by assumption.
  rewrite !fin_inject_Z by lia.
  rewrite !num_mul_Z by lia. rewrite !num_add_Z by lia.
  fold whole thousandths. rewrite Hr. reflexivity.
Qed.

Lemma wellformed_timestamp_in_seconds_witness :
  isDigits "00" = true /\ isDigits "01" = true
  /\ isDigits "02" = true /\ isDigits "500" = true
  /\ (String.length "00" <= 4)%nat /\ (String.length "01" <= 2)%nat
  /\ (String.length "02" <= 2)%nat /\ (String.length "500" <= 3)%nat
  /\ exists r,
       timestampToSeconds_run "00:01:02,500" = (Fin r, [])
       /\ (Qabs (r - (inject_Z 62 + inject_Z 500 / 1000)) <= 1 # 2 ^ 27)%Q
       /\ Math_round (Fin r) = num_of_Z 63.
Proof.
  assert (String.length "00" <= 4)%nat as L1 by (simpl; lia).
  assert (String.length "01" <= 2)%nat as L2 by (simpl; lia).
  assert (String.length "02" <= 2)%nat as L3 by (simpl; lia).
  assert (String.length "500" <= 3)%nat as L4 by (simpl; lia).
  do 4 (split; [reflexivity|]).
  split; [exact L1|]. split; [exact L2|]. split; [exact L3|].
  split; [exact L4|].
  exact (wellformed_timestamp_in_seconds "00" "01" "02" "500"
           eq_refl eq_refl eq_refl eq_refl L1 L2 L3 L4).
Defined.

Lemma length_split sep s : length (split sep s) = S (countChar sep s).
Proof.
  induction s as [|c r IH]; [reflexivity|].
  cbn [split countChar]. destruct (Ascii.eqb c sep).
  - cbn [length]. rewrite IH. reflexivity.
  - destruct (split sep r) as [|p ps]; [discriminate|]. exact IH.
Qed.

Lemma countChar_first_piece sep c s p ps :
  split sep s = p :: ps -> (countChar c p <= countChar c s)%nat.
Proof.
  revert p ps. induction s as [|d r IH]; intros p ps.
  - simpl. intros [= <- _]. simpl. lia.
  - cbn [split]. destruct (Ascii.eqb d sep).
    + intros [= <- _]. simpl. lia.
    + destruct (split sep r) as [|p' ps'] eqn:E.
      * intros [= <- _]. simpl. lia.
      * intros [= <- _]. specialize (IH p' ps' eq_refl). simpl. lia.
Qed.

(** X16.  A timestamp with fewer than two colons, such as [MM:SS,mmm],
    is not read as a shorter form: the missing field is [undefined], the
    value returned is [NaN], and nothing is printed. *)
Theorem short_timestamp_is_NaN (timestamp : string) :
  (countChar ":" timestamp < 2)%nat ->
  timestampToSeconds_run timestamp = (NaN, []).
Proof.
  intros Hcount. unfold timestampToSeconds_run, timestampToSeconds_try.
  destruct (split_first "," timestamp) as (time & rest & Hsplit).
  rewrite Hsplit. cbn [lookup list_lookup].
  pose proof (countChar_first_piece "," ":" _ _ _ Hsplit) as Hle.
  pose proof (length_split ":" time) as Hlen.
  assert (map Number (split ":" time) !! 2%nat = None) as ->.
  { apply lookup_ge_None. rewrite length_map. lia. }
  cbn [toNumber]. rewrite num_add_NaN_r. reflexivity.
Qed.

Lemma short_timestamp_is_NaN_witness :
  (countChar ":" "01:02,500" < 2)%nat
  /\ timestampToSeconds_run "01:02,500" = (NaN, []).
Proof.
  assert (countChar ":" "01:02,500" < 2)%nat as H by (vm_compute; lia).
  split; [exact H|].
  exact (short_timestamp_is_NaN "01:02,500" H).
Defined.

End TimestampFormula.

(** ** Displayed times *)

Section DisplayedTimes.

Lemma decimalFrom_of_uint_acc d acc :
  decimalFrom (N.pos acc) (NilEmpty.string_of_uint d)
  = N.pos (Pos.of_uint_acc d acc).
Proof.
  revert acc. induction d; intros acc; [reflexivity|..];
    cbn [NilEmpty.string_of_uint decimalFrom Pos.of_uint_acc];
    rewrite <- IHd; f_equal; cbn; lia.
Qed.

Lemma decimalFrom_of_uint d :
  decimalFrom 0 (NilEmpty.string_of_uint d) = Pos.of_uint d.
Proof.
  induction d; [reflexivity|..];
    cbn [NilEmpty.string_of_uint decimalFrom Pos.of_uint];
    try exact IHd; apply decimalFrom_of_uint_acc.
Qed.

Lemma allDigits_string_of_uint d :
  allDigits (NilEmpty.string_of_uint d) = true.
Proof. induction d; [reflexivity|..]; exact IHd. Qed.

Lemma showN_NilEmpty n :
  showN n = NilEmpty.string_of_uint (N.to_uint n)
  /\ showN n <> EmptyString.
Proof.
  unfold showN. destruct n as [|p]; [split; [reflexivity | discriminate]|].
  unfold NilZero.string_of_uint.
  destruct (N.to_uint (N.pos p)) eqn:E; [|split; [reflexivity|discriminate]..].
  apply (f_equal N.of_uint) in E. rewrite DecimalN.Unsigned.of_to in E.
  discriminate.
Qed.

(** Printing a natural number and reading the digits gives it back. *)
Lemma decimalValue_showN n : decimalValue (showN n) = n.
Proof.
  destruct (showN_NilEmpty n) as [-> _]. unfold decimalValue.
  rewrite decimalFrom_of_uint. apply DecimalN.Unsigned.of_to.
Qed.

Lemma isDigits_showN n : isDigits (showN n) = true.
Proof.
  unfold isDigits. destruct (showN_NilEmpty n) as [E Hne].
  rewrite E in *. rewrite allDigits_string_of_uint.
  destruct (NilEmpty.string_of_uint (N.to_uint n)); [congruence|reflexivity].
Qed.

Lemma length_append a b :
  String.length (a ++ b)%string = (String.length a + String.length b)%nat.
Proof.
  induction a as [|c a IH]; [reflexivity|].
  rewrite append_String. simpl. rewrite IH. reflexivity.
Qed.

Lemma length_repeatChar n c : String.length (repeatChar n c) = n.
Proof. induction n as [|n IH]; [reflexivity|]. simpl. rewrite IH. reflexivity. Qed.

Lemma padStart_zero_digits n s :
  isDigits s = true ->
  isDigits (padStart n "0" s) = true
  /\ decimalValue (padStart n "0" s) = decimalValue s
  /\ String.length (padStart n "0" s) = Nat.max n (String.length s).
Proof.
  intros Hs. unfold padStart.
  rewrite length_append, length_repeatChar.
  split; [|split; [|lia]].
  - induction (n - String.length s)%nat as [|k IH]; [exact Hs|].
    cbn [repeatChar]. rewrite append_String.
    unfold isDigits in *. cbn [isEmpty negb allDigits andb].
    apply andb_true_iff in IH as [_ IH]. rewrite IH. reflexivity.
  - unfold decimalValue.
    induction (n - String.length s)%nat as [|k IH]; [reflexivity|].
    cbn [repeatChar]. rewrite append_String. exact IH.
Qed.

Lemma length_showN_small n : (n < 100)%N -> (String.length (showN n) <= 2)%nat.
Proof.
  intros H.
  assert (exists k, (k < 100)%nat /\ n = N.of_nat k) as (k & Hk & ->)
      by (exists (N.to_nat n); lia).
  clear H. do 100 (destruct k as [|k]; [vm_compute; lia|]). lia.
Qed.

Lemma Number_toString_whole z :
  (0 <= z < 2 ^ 53)%Z ->
  Number_toString (num_of_Z z) = Some (showN (Z.to_N z)).
Proof.
  intros Hz. unfold Number_toString, num_of_Z. rewrite Qred_inject_Z.
  cbn [Qden Qnum inject_Z Pos.eqb andb].
  rewrite Z.abs_eq by lia.
  destruct (Z.ltb_spec z (2 ^ 53)) as [_|]; [|lia].
  destruct (Z.ltb_spec z 0) as [|_]; [lia|].
  rewrite append_empty_l. do 2 f_equal. lia.
Qed.

Lemma Math_floor_div60 a :
  (0 <= a < 2 ^ 53)%Z ->
  Math_floor (Fin (inject_Z a) / num_of_Z 60)%num = num_of_Z (a / 60).
Proof.
  intros Ha. unfold num_of_Z. cbn [num_div].
  change (Qsign (inject_Z 60)) with Gt. cbv iota.
  change (inject_Z 60) with 60%Q.
  change (2 ^ 53)%Z with 9007199254740992%Z in Ha.
  pose proof (Z.div_mod a 60 ltac:(lia)) as Hdm.
  pose proof (Z.mod_pos_bound a 60 ltac:(lia)) as Hmod.
  set (k := (a / 60)%Z) in *. set (t := (a mod 60)%Z) in *.
  assert (inject_Z a == 60 * inject_Z k + inject_Z t)%Q as Ea.
  { rewrite Hdm, inject_Z_plus, inject_Z_mult. reflexivity. }
  assert (0 <= inject_Z k)%Q as K0
      by (change 0%Q with (inject_Z 0); rewrite <- Zle_Qle; lia).
  assert (inject_Z k <= 150119987579016)%Q as K1
      by (change 150119987579016%Q with (inject_Z 150119987579016);
          rewrite <- Zle_Qle; lia).
  assert (0 <= inject_Z t)%Q as T0
      by (change 0%Q with (inject_Z 0); rewrite <- Zle_Qle; lia).
  assert (inject_Z t <= 59)%Q as T1
      by (change 59%Q with (inject_Z 59); rewrite <- Zle_Qle; lia).
  destruct (fin_small 48 (inject_Z a / 60)) as (r & E & _ & Err & Ex).
  { lia. }
  { q_lra. }
  { change (inject_Z (2 ^ 48)) with 281474976710656%Q. q_lra. }
  change (halfUlp 48) with (1 # 64)%Q in Err.
  apply Qabs_Qle_condition in Err.
  rewrite E. cbn [Math_floor]. unfold num_of_Z. do 2 f_equal.
  destruct (Z.eq_dec t 0%Z) as [Ht|Ht].
  - assert (inject_Z a / 60 == inject_Z k)%Q as Ek.
    { rewrite Ea, Ht. change (inject_Z 0) with 0%Q. field. }
    rewrite Ex.
    + rewrite (Qred_complete _ _ Ek), Qred_inject_Z. apply Qfloor_Z.
    + rewrite (Qred_complete _ _ Ek), Qred_inject_Z. exists 32%Z. reflexivity.
  - assert (1 <= inject_Z t)%Q
        by (change 1%Q with (inject_Z 1); rewrite <- Zle_Qle; lia).
    apply Qfloor_between; rewrite ?inject_Z_plus;
      change (inject_Z 1) with 1%Q; q_lra.
Qed.

Lemma Math_floor_rem60 a :
  (0 <= a)%Z ->
  Math_floor (Fin (inject_Z a) mod num_of_Z 60)%num = num_of_Z (a mod 60).
Proof.
  intros Ha. unfold num_of_Z. cbn [num_rem].
  change (Qsign (inject_Z 60)) with Gt. cbv iota.
  pose proof (Z.mod_pos_bound a 60 ltac:(lia)) as Hmod.
  assert (Qtruncate (inject_Z a / inject_Z 60) = (a / 60)%Z) as ->.
  { unfold Qtruncate, Qdiv, Qmult, Qinv, inject_Z. cbn [Qnum Qden].
    rewrite Z.mul_1_r. apply Z.quot_div_nonneg; lia. }
  assert (inject_Z a - inject_Z 60 * inject_Z (a / 60)
          == inject_Z (a mod 60))%Q as E.
  { rewrite <- inject_Z_mult. unfold Qminus.
    rewrite <- inject_Z_opp, <- inject_Z_plus.
    rewrite Z.mod_eq by lia. reflexivity. }
  rewrite (fin_eq _ _ E), fin_inject_Z.
  - unfold Math_floor, num_of_Z. rewrite Qfloor_Z. reflexivity.
  - change (2 ^ 52)%Z with 4503599627370496%Z. lia.
Qed.

(** X17.  For a whole number of seconds [n] below [2 ^ 53], [formatTime]
    gives [minutes:seconds] in decimal digits: the seconds take exactly two
    digits and are below 60, the minutes take at least two digits and are
    not cut, and minutes*60 + seconds is [n] again. *)
Theorem formatTime_whole_seconds (n : N) :
  (n < 2 ^ 53)%N ->
  exists mm ss,
    formatTime (num_of_Z (Z.of_N n)) = Some (mm ++ ":" ++ ss)%string
    /\ isDigits mm = true /\ isDigits ss = true
    /\ (2 <= String.length mm)%nat /\ String.length ss = 2%nat
    /\ (decimalValue ss < 60)%N
    /\ (decimalValue mm * 60 + decimalValue ss)%N = n.
Proof.
  intros Hn. change (2 ^ 53)%N with 9007199254740992%N in Hn.
  exists (padStart 2 "0" (showN (n / 60))),
         (padStart 2 "0" (showN (n mod 60))).
  destruct (padStart_zero_digits 2 _ (isDigits_showN (n / 60)))
    as (Dm & Vm & Lm).
  destruct (padStart_zero_digits 2 _ (isDigits_showN (n mod 60)))
    as (Ds & Vs & Ls).
  rewrite decimalValue_showN in Vm, Vs.
  assert (n mod 60 < 60)%N as Hmod by (apply N.mod_lt; lia).
  split; [|repeat split; try assumption].
  - unfold formatTime, num_of_Z. cbn [isNaN].
    change (Fin (inject_Z 60)) with (num_of_Z 60).
    rewrite Math_floor_div60, Math_floor_rem60
      by (change (2 ^ 53)%Z with 9007199254740992%Z; lia).
    rewrite !Number_toString_whole.
    + assert (Z.to_N (Z.of_N n / 60) = (n / 60)%N) as ->
          by (change 60%Z with (Z.of_N 60);
              rewrite <- N2Z.inj_div; apply N2Z.id).
      assert (Z.to_N (Z.of_N n mod 60) = (n mod 60)%N) as ->
          by (change 60%Z with (Z.of_N 60);
              rewrite <- N2Z.inj_mod; apply N2Z.id).
      reflexivity.
    + pose proof (Z.mod_pos_bound (Z.of_N n) 60). lia.
    + split; [apply Z.div_pos; lia|].
      apply Z.div_lt_upper_bound; lia.
  - rewrite Lm. lia.
  - rewrite Ls. pose proof (length_showN_small (n mod 60)).
    pose proof (proj2 (showN_NilEmpty (n mod 60))) as Hne.
    destruct (showN (n mod 60)); [congruence|]. simpl in *. lia.
  - rewrite Vs. exact Hmod.
  - rewrite Vm, Vs. rewrite N.mul_comm. symmetry. apply N.div_mod. lia.
Qed.

Lemma formatTime_whole_seconds_witness :
  (62 < 2 ^ 53)%N
  /\ exists mm ss,
       formatTime (num_of_Z (Z.of_N 62)) = Some (mm ++ ":" ++ ss)%string
       /\ isDigits mm = true /\ isDigits ss = true
       /\ (2 <= String.length mm)%nat /\ String.length ss = 2%nat
       /\ (decimalValue ss < 60)%N
       /\ (decimalValue mm * 60 + decimalValue ss)%N = 62%N.
Proof.
  assert (62 < 2 ^ 53)%N as H by reflexivity.
  split; [exact H|].
  exact (formatTime_whole_seconds 62 H).
Defined.

(** X18.  A sentence time read from a timestamp without comma, or from an
    empty timestamp, is displayed as [00:00]. *)
Theorem comma_less_timestamp_displayed_as_zero (timestamp : string) :
  occurs "," timestamp = false ->
  formatTime (Math_round (secondsOrZero timestamp)) = Some "00:00".
Proof.
  intros H. unfold secondsOrZero, truthy.
  destruct timestamp as [|c r]; [reflexivity|].
  cbn [isEmpty negb]. unfold timestampToSeconds.
  rewrite (timestampToSeconds_without_comma _ H). reflexivity.
Qed.

Lemma comma_less_timestamp_displayed_as_zero_witness :
  occurs "," "00:01:02500" = false
  /\ formatTime (Math_round (secondsOrZero "00:01:02500")) = Some "00:00".
Proof.
  split; [reflexivity|].
  exact (comma_less_timestamp_displayed_as_zero "00:01:02500" eq_refl).
Defined.

End DisplayedTimes.
